(** * RELAPACK_dgemmt: triangular-output matrix product (relapack/src/dgemmt.c)

    A shallow embedding of the three routines of [dgemmt.c]
    ([RELAPACK_dgemmt], [RELAPACK_dgemmt_rec], [RELAPACK_dgemmt_rec2]) and
    the properties of its specification.

    Conventions of the embedding.
    - A C [int] is a [Z]; the arithmetic the routines do on [int]s goes
      through [wrap], the 32-bit two's-complement result.  Signed overflow is
      undefined in C: the theorems that depend on offsets assume that the
      offsets are in range ([offsets_in_int], [offsets_fit]), so they hold
      whatever an overflow would do; the last part of the file runs the
      routines on valid inputs whose offsets do not fit.
    - A [double] is an element of an abstract type [R] with an addition and a
      multiplication; no law of arithmetic is assumed or used.
    - A [double *] is an offset (a [Z]) into a store [Z -> R].  [A] and [B]
      are [const] and live in two read-only stores; [C] lives in the store
      carried by the state.
    - The BLAS and LAPACK routines the file calls are not part of it: each
      call is recorded, with its arguments, in the state's list of calls, and
      [dgemm] and [dgemv] update the store as their contract says.
    - What relapack.h and the build configuration supply ([HAVE_XGEMMT],
      [CROSSOVER_DGEMMT], [DREC_SPLIT]) and LAPACK's [lsame] are parameters.
    - The recursion of [RELAPACK_dgemmt_rec] ends only if [DREC_SPLIT] makes
      progress, so the kernel runs on fuel; the theorems show that fuel
      above [n] is enough. *)

From Stdlib Require Import ZArith List Lia Bool Ascii String.
Import ListNotations.
Local Open Scope Z_scope.

(** ** C [int] arithmetic *)

Definition INT_MAX : Z := 2147483647.
Definition INT_MIN : Z := -2147483648.

Definition wrap (x : Z) : Z := (x + 2147483648) mod 4294967296 - 2147483648.

Definition int_add (a b : Z) : Z := wrap (a + b).
Definition int_sub (a b : Z) : Z := wrap (a - b).
Definition int_mul (a b : Z) : Z := wrap (a * b).

(** Modelled from the spec: the [MAX] macro of relapack.h, a header that is
    not among the sources; the spec writes the bounds it is used for as
    max(1, n). *)
Definition MAX (a b : Z) : Z := if a >? b then a else b.

(** ** Counted loops of the BLAS primitives *)

Fixpoint iter_from {S : Type} (cnt : nat) (i : Z) (body : Z -> S -> S) (s : S) : S :=
  match cnt with
  | O => s
  | S c => iter_from c (i + 1) body (body i s)
  end.

(** [for_range n body s]: run [body 0], [body 1], ..., [body (n-1)] in turn. *)
Definition for_range {S : Type} (n : Z) (body : Z -> S -> S) (s : S) : S :=
  iter_from (Z.to_nat n) 0 body s.

(** The indices [i0], [i0 + 1], ... a loop of [cnt] iterations visits. *)
Fixpoint zrange (i0 : Z) (cnt : nat) : list Z :=
  match cnt with
  | O => []
  | S c => i0 :: zrange (i0 + 1) c
  end.

(** Offset of element [i] of a BLAS vector of [len] elements and increment
    [inc] (a negative increment walks the vector backwards). *)
Definition vec_at (len inc i : Z) : Z :=
  if inc <? 0 then (i - (len - 1)) * inc else i * inc.

(** ** A concrete configuration for the worked examples

    The configuration macros and LAPACK's comparator are parameters of the
    embedding; the examples at the end of the file run the routines with
    these. *)

Definition to_upper (c : ascii) : ascii :=
  let n := N_of_ascii c in
  if ((97 <=? n) && (n <=? 122))%N then ascii_of_N (n - 32) else c.

(** A comparator that ignores the case of ASCII letters, in the place of
    LAPACK's [lsame]. *)
Definition lsame_ascii (ca cb : ascii) : bool :=
  Ascii.eqb (to_upper ca) (to_upper cb).

(** A split policy "n1 about half of n", in the place of [DREC_SPLIT]. *)
Definition half_split (n : Z) : Z := n / 2.

(** A 3 x 2 matrix A and a 2 x 3 matrix B, column by column, and an initial
    content of C that tells every address apart. *)
Definition ex_A : Z -> Z := fun a => nth (Z.to_nat a) [1; 2; 3; 4; 5; 6] 0.
Definition ex_B : Z -> Z := fun a => nth (Z.to_nat a) [7; 8; 9; 10; 11; 12] 0.
Definition ex_C : Z -> Z := fun a => 100 + a.

(** The matrix A again, in a store whose other addresses hold something
    else than those of [ex_A]. *)
Definition ex_A_elsewhere : Z -> Z :=
  fun a => if (0 <=? a) && (a <? 6) then ex_A a else 77.

(** A native dgemmt that leaves C alone: the examples that take the fast
    path only look at the calls made. *)
Definition ex_native (uplo transA transB : ascii) (n k alpha A ldA B ldB beta
    C ldC : Z) (c : Z -> Z) : Z -> Z := c.

Section Dgemmt.

(** ** Scalars and stores *)

Variable R : Type.
Variable rzero : R.
Variables radd rmul : R -> R -> R.

Definition store : Type := Z -> R.

Definition upd (m : store) (a : Z) (v : R) : store :=
  fun x => if x =? a then v else m x.

(** The calls the file makes to its collaborators, with their arguments;
    pointers are recorded as offsets. *)
Inductive call : Type :=
| Xerbla (name : string) (info : Z)
| Dgemmt (uplo transA transB : ascii) (n k : Z) (alpha : R) (A ldA B ldB : Z)
         (beta : R) (C ldC : Z)
| Dgemm (transA transB : ascii) (m n k : Z) (alpha : R) (A ldA B ldB : Z)
        (beta : R) (C ldC : Z)
| Dgemv (trans : ascii) (m n : Z) (alpha : R) (A ldA X incX : Z)
        (beta : R) (Y incY : Z).

Record state : Type := mkState { Cmem : store; calls : list call }.

(** The read-only operands. *)
Variables Amem Bmem : store.

(** ** Configuration and collaborators that the file takes from outside *)

(** relapack.h / config.h: fast-path flag, recursion threshold, split policy. *)
Variable HAVE_XGEMMT : bool.
Variable CROSSOVER_DGEMMT : Z.
Variable DREC_SPLIT : Z -> Z.

(** LAPACK's character comparator. *)
Variable lsame : ascii -> ascii -> bool.

(** What a native [dgemmt] of the underlying library does to [C]. *)
Variable native_dgemmt :
  ascii -> ascii -> ascii -> Z -> Z -> R -> Z -> Z -> Z -> Z -> R -> Z -> Z ->
  store -> store.

(** ** The dense primitives *)

Definition dot (k : Z) (a b : Z -> R) : R :=
  for_range k (fun l acc => radd acc (rmul (a l) (b l))) rzero.

(** Entry (r, c) of op(X) for a column-major [X] with leading dimension
    [ldX]: [X] itself for the flag 'N', its transpose otherwise. *)
Definition op_entry (trans : ascii) (X : store) (pX ldX r c : Z) : R :=
  if Ascii.eqb trans "N" then X (pX + r + c * ldX) else X (pX + c + r * ldX).

Definition gemm_entry (transA transB : ascii) (k : Z) (alpha : R)
    (A ldA B ldB : Z) (beta : R) (i j : Z) (c : R) : R :=
  radd (rmul alpha (dot k (fun l => op_entry transA Amem A ldA i l)
                          (fun l => op_entry transB Bmem B ldB l j)))
       (rmul beta c).

(** Modelled from the spec: the dense matrix-matrix multiply of the
    underlying library (not among the sources), "full general multiply
    C := alpha·op(A)·op(B) + beta·C with no triangular restriction", on an
    m x n block of [C], column by column. *)
Definition dgemm_store (transA transB : ascii) (m n k : Z) (alpha : R)
    (A ldA B ldB : Z) (beta : R) (C ldC : Z) (c0 : store) : store :=
  for_range n (fun j cj =>
    for_range m (fun i ci =>
      let a := C + i + j * ldC in
      upd ci a (gemm_entry transA transB k alpha A ldA B ldB beta i j (ci a)))
      cj) c0.

Definition gemv_entry (trans : ascii) (m n : Z) (alpha : R)
    (A ldA X incX : Z) (beta : R) (i : Z) (c : R) : R :=
  let lenx := if Ascii.eqb trans "N" then n else m in
  radd (rmul alpha (dot lenx (fun l => op_entry trans Amem A ldA i l)
                             (fun l => Bmem (X + vec_at lenx incX l))))
       (rmul beta c).

(** Modelled from the spec: the dense matrix-vector multiply of the
    underlying library (not among the sources), "analogous operation where
    one operand is a vector": y := alpha·op(A)·x + beta·y for an m x n
    matrix [A]; here [x] is always a slice of [B] and [y] a slice of [C]. *)
Definition dgemv_store (trans : ascii) (m n : Z) (alpha : R)
    (A ldA X incX : Z) (beta : R) (Y incY : Z) (c0 : store) : store :=
  let leny := if Ascii.eqb trans "N" then m else n in
  for_range leny (fun i ci =>
    let a := Y + vec_at leny incY i in
    upd ci a (gemv_entry trans m n alpha A ldA X incX beta i (ci a))) c0.

Definition log (c : call) (m : store) (st : state) : state :=
  mkState m (calls st ++ [c]).

Definition BLAS_dgemm (transA transB : ascii) (m n k : Z) (alpha : R)
    (A ldA B ldB : Z) (beta : R) (C ldC : Z) (st : state) : state :=
  log (Dgemm transA transB m n k alpha A ldA B ldB beta C ldC)
      (dgemm_store transA transB m n k alpha A ldA B ldB beta C ldC (Cmem st)) st.

Definition BLAS_dgemv (trans : ascii) (m n : Z) (alpha : R)
    (A ldA X incX : Z) (beta : R) (Y incY : Z) (st : state) : state :=
  log (Dgemv trans m n alpha A ldA X incX beta Y incY)
      (dgemv_store trans m n alpha A ldA X incX beta Y incY (Cmem st)) st.

Definition BLAS_dgemmt (uplo transA transB : ascii) (n k : Z) (alpha : R)
    (A ldA B ldB : Z) (beta : R) (C ldC : Z) (st : state) : state :=
  log (Dgemmt uplo transA transB n k alpha A ldA B ldB beta C ldC)
      (native_dgemmt uplo transA transB n k alpha A ldA B ldB beta C ldC (Cmem st)) st.

(** Modelled from the spec: the diagnostic collaborator (not among the
    sources) "is invoked with the routine's name and that index"; it writes
    nothing to [C]. *)
Definition LAPACK_xerbla (name : string) (info : Z) (st : state) : state :=
  log (Xerbla name info) (Cmem st) st.

(** ** The unblocked kernel (dgemmt.c, lines 125-165) *)

Definition rec2_body (uplo transA transB : ascii) (n k : Z) (alpha : R)
    (A ldA B ldB : Z) (beta : R) (C ldC : Z) (incB incC : Z)
    (i : Z) (st : state) : state :=
  let A_0 := A in
  let A_i := A + (if Ascii.eqb transA "N" then i else int_mul ldA i) in
  let B_i := B + (if Ascii.eqb transB "N" then int_mul ldB i else i) in
  let C_0i := C + int_mul ldC i in
  let C_ii := C + int_mul ldC i + i in
  if Ascii.eqb uplo "L" then
    let nmi := int_sub n i in
    if Ascii.eqb transA "N"
    then BLAS_dgemv transA nmi k alpha A_i ldA B_i incB beta C_ii incC st
    else BLAS_dgemv transA k nmi alpha A_i ldA B_i incB beta C_ii incC st
  else
    let ip1 := int_add i 1 in
    if Ascii.eqb transA "N"
    then BLAS_dgemv transA ip1 k alpha A_0 ldA B_i incB beta C_0i incC st
    else BLAS_dgemv transA k ip1 alpha A_0 ldA B_i incB beta C_0i incC st.

(** [for (i = 0; i < *n; i++)]: [cnt] bounds the number of iterations left. *)
Fixpoint rec2_loop (cnt : nat) (n i : Z) (body : Z -> state -> state)
    (st : state) : state :=
  match cnt with
  | O => st
  | S c => if i <? n then rec2_loop c n (int_add i 1) body (body i st) else st
  end.

Definition RELAPACK_dgemmt_rec2 (uplo transA transB : ascii) (n k : Z)
    (alpha : R) (A ldA B ldB : Z) (beta : R) (C ldC : Z) (st : state) : state :=
  let incB := if Ascii.eqb transB "N" then 1 else ldB in
  let incC := 1 in
  rec2_loop (Z.to_nat n) n 0
    (rec2_body uplo transA transB n k alpha A ldA B ldB beta C ldC incB incC) st.

(** ** The recursive kernel (dgemmt.c, lines 75-121)

    The recursion ends only if the split policy makes the two halves
    smaller, so the kernel takes fuel: [None] is a recursion deeper than
    [fuel]. *)

Fixpoint RELAPACK_dgemmt_rec (fuel : nat) (uplo transA transB : ascii)
    (n k : Z) (alpha : R) (A ldA B ldB : Z) (beta : R) (C ldC : Z)
    (st : state) : option state :=
  match fuel with
  | O => None
  | S fuel' =>
    if n <=? MAX CROSSOVER_DGEMMT 1 then
      Some (RELAPACK_dgemmt_rec2 uplo transA transB n k alpha A ldA B ldB beta C ldC st)
    else
      let n1 := DREC_SPLIT n in
      let n2 := int_sub n n1 in
      let A_T := A in
      let A_B := A + (if Ascii.eqb transA "N" then n1 else int_mul ldA n1) in
      let B_L := B in
      let B_R := B + (if Ascii.eqb transB "N" then int_mul ldB n1 else n1) in
      let C_TL := C in
      let C_TR := C + int_mul ldC n1 in
      let C_BL := C + n1 in
      let C_BR := C + int_mul ldC n1 + n1 in
      match RELAPACK_dgemmt_rec fuel' uplo transA transB n1 k alpha
              A_T ldA B_L ldB beta C_TL ldC st with
      | None => None
      | Some st1 =>
        let st2 :=
          if Ascii.eqb uplo "L"
          then BLAS_dgemm transA transB n2 n1 k alpha A_B ldA B_L ldB beta C_BL ldC st1
          else BLAS_dgemm transA transB n1 n2 k alpha A_T ldA B_R ldB beta C_TR ldC st1 in
        RELAPACK_dgemmt_rec fuel' uplo transA transB n2 k alpha
          A_B ldA B_R ldB beta C_BR ldC st2
      end
  end.

(** ** The entry point (dgemmt.c, lines 21-71) *)

(** The value of [info] after the chain of checks (lines 41-57). *)
Definition dgemmt_info (lower upper notransA tranA notransB tranB : bool)
    (n k ldA ldB ldC : Z) : Z :=
  if negb lower && negb upper then 1
  else if negb tranA && negb notransA then 2
  else if negb tranB && negb notransB then 3
  else if n <? 0 then 4
  else if k <? 0 then 5
  else if ldA <? MAX 1 (if notransA then n else k) then 8
  else if ldB <? MAX 1 (if notransB then k else n) then 10
  else if ldC <? MAX 1 n then 13
  else 0.

Definition RELAPACK_dgemmt (fuel : nat) (uplo transA transB : ascii)
    (n k : Z) (alpha : R) (A ldA B ldB : Z) (beta : R) (C ldC : Z)
    (st : state) : option state :=
  if HAVE_XGEMMT then
    Some (BLAS_dgemmt uplo transA transB n k alpha A ldA B ldB beta C ldC st)
  else
    let lower := lsame uplo "L" in
    let upper := lsame uplo "U" in
    let notransA := lsame transA "N" in
    let tranA := lsame transA "T" in
    let notransB := lsame transB "N" in
    let tranB := lsame transB "T" in
    let info := dgemmt_info lower upper notransA tranA notransB tranB
                            n k ldA ldB ldC in
    if negb (info =? 0) then Some (LAPACK_xerbla "DGEMMT" info st)
    else
      let cleanuplo := if lower then "L"%char else "U"%char in
      let cleantransA := if notransA then "N"%char else "T"%char in
      let cleantransB := if notransB then "N"%char else "T"%char in
      RELAPACK_dgemmt_rec fuel cleanuplo cleantransA cleantransB
        n k alpha A ldA B ldB beta C ldC st.

(** ** Vocabulary of the specification *)

(** Entry (i, j) of an n x n matrix lies in the selected triangle,
    diagonal included. *)
Definition tri (lower : bool) (n i j : Z) : Prop :=
  0 <= i < n /\ 0 <= j < n /\ (if lower then j <= i else i <= j).

(** Address [a] holds an entry of the selected triangle of the matrix at
    [C] with leading dimension [ldC]. *)
Definition tri_addr (lower : bool) (n C ldC a : Z) : Prop :=
  exists i j, tri lower n i j /\ a = C + i + j * ldC.

(** The products by [m] that the kernels compute on [int]s stay in the
    range of [int]: ldC * m always, ldA * m when A is transposed, ldB * m
    when B is as given. *)
Definition products_in_int (notransA notransB : bool) (m ldA ldB ldC : Z) : bool :=
  (ldC * m <=? INT_MAX)
  && (notransA || (ldA * m <=? INT_MAX))
  && (negb notransB || (ldB * m <=? INT_MAX)).

(** The offsets the unblocked kernel computes on an n x n problem stay in
    the range of [int]: n is an [int], and the kernel multiplies by the
    indices 0 .. n - 1. *)
Definition offsets_in_int (notransA notransB : bool) (n ldA ldB ldC : Z) : bool :=
  (n <=? INT_MAX) && products_in_int notransA notransB (n - 1) ldA ldB ldC.

(** The split policy is usable up to size [n]: above the threshold both
    halves are non-empty. *)
Definition split_ok (n : Z) : Prop :=
  forall m, MAX CROSSOVER_DGEMMT 1 < m <= n -> 0 < DREC_SPLIT m < m.

(** The offsets the recursive kernel computes on an n x n problem stay in
    the range of [int], along the recursion it runs: at or below the
    threshold those of the unblocked kernel, above it the products by the
    split point n1 and the offsets of the two halves. *)
Fixpoint offsets_fit (fuel : nat) (notransA notransB : bool)
    (n ldA ldB ldC : Z) : bool :=
  match fuel with
  | O => true
  | S fuel' =>
    if n <=? MAX CROSSOVER_DGEMMT 1 then offsets_in_int notransA notransB n ldA ldB ldC
    else
      let n1 := DREC_SPLIT n in
      (n <=? INT_MAX) && products_in_int notransA notransB n1 ldA ldB ldC
      && offsets_fit fuel' notransA notransB n1 ldA ldB ldC
      && offsets_fit fuel' notransA notransB (n - n1) ldA ldB ldC
  end.

(** The addresses of [C] a dense primitive call writes. *)
Definition touches (a : Z) (c : call) : bool :=
  match c with
  | Dgemm _ _ m n _ _ _ _ _ _ _ C ldC =>
      existsb (fun j => existsb (fun i => a =? C + i + j * ldC)
                                (zrange 0 (Z.to_nat m)))
              (zrange 0 (Z.to_nat n))
  | Dgemv trans m n _ _ _ _ _ _ Y incY =>
      let leny := if Ascii.eqb trans "N" then m else n in
      existsb (fun i => a =? Y + vec_at leny incY i) (zrange 0 (Z.to_nat leny))
  | Xerbla _ _ => false
  | Dgemmt _ _ _ _ _ _ _ _ _ _ _ _ _ => false
  end.

(** How many of the calls [t] write address [a]. *)
Definition touch_count (a : Z) (t : list call) : nat :=
  List.length (filter (touches a) t).

(** [c] is a call to one of the two dense primitives, with scalars [alpha]
    and [beta]. *)
Definition dense_with (alpha beta : R) (c : call) : Prop :=
  match c with
  | Dgemm _ _ _ _ _ al _ _ _ _ be _ _ => al = alpha /\ be = beta
  | Dgemv _ _ _ al _ _ _ _ be _ _ => al = alpha /\ be = beta
  | _ => False
  end.

(** Store [c1] holds, on the selected triangle, the entries of
    alpha·op(A)·op(B) + beta·C computed over the store [c0]. *)
Definition triangle_updated (lower : bool) (transA transB : ascii) (n k : Z)
    (alpha : R) (A ldA B ldB : Z) (beta : R) (C ldC : Z) (c0 c1 : store) : Prop :=
  forall i j, tri lower n i j ->
    c1 (C + i + j * ldC) =
    gemm_entry transA transB k alpha A ldA B ldB beta i j (c0 (C + i + j * ldC)).

(** Stores [c0] and [c1] agree everywhere outside the selected triangle. *)
Definition rest_unchanged (lower : bool) (n C ldC : Z) (c0 c1 : store) : Prop :=
  forall a, ~ tri_addr lower n C ldC a -> c1 a = c0 a.

(** Each address of the selected triangle is written by exactly one of the
    calls [t], and no other address by any. *)
Definition each_once (lower : bool) (n C ldC : Z) (t : list call) : Prop :=
  forall a, (tri_addr lower n C ldC a -> touch_count a t = 1%nat) /\
            (~ tri_addr lower n C ldC a -> touch_count a t = 0%nat).

(** What a recorded call does to the store of [C]. *)
Definition run_call (c : call) (m : store) : store :=
  match c with
  | Xerbla _ _ => m
  | Dgemmt uplo transA transB n k alpha A ldA B ldB beta C ldC =>
      native_dgemmt uplo transA transB n k alpha A ldA B ldB beta C ldC m
  | Dgemm transA transB m' n k alpha A ldA B ldB beta C ldC =>
      dgemm_store transA transB m' n k alpha A ldA B ldB beta C ldC m
  | Dgemv trans m' n alpha A ldA X incX beta Y incY =>
      dgemv_store trans m' n alpha A ldA X incX beta Y incY m
  end.

(** The matrix-vector call the specification gives for index [i] of the
    unblocked kernel: in the lower case the column segment C[i..n-1, i],
    with rows (or columns) i.. of A; in the upper case C[0..i, i], with the
    first i+1 rows (or columns) of A; the B operand is column i of op(B),
    with stride 1 when B is as given and ldB when it is transposed; the
    output stride is 1. *)
Definition rec2_call (uplo transA transB : ascii) (n k : Z) (alpha : R)
    (A ldA B ldB : Z) (beta : R) (C ldC : Z) (i : Z) : call :=
  let incB := if Ascii.eqb transB "N" then 1 else ldB in
  let B_i := if Ascii.eqb transB "N" then B + ldB * i else B + i in
  if Ascii.eqb uplo "L" then
    if Ascii.eqb transA "N"
    then Dgemv transA (n - i) k alpha (A + i) ldA B_i incB beta (C + ldC * i + i) 1
    else Dgemv transA k (n - i) alpha (A + ldA * i) ldA B_i incB beta (C + ldC * i + i) 1
  else
    if Ascii.eqb transA "N"
    then Dgemv transA (i + 1) k alpha A ldA B_i incB beta (C + ldC * i) 1
    else Dgemv transA k (i + 1) alpha A ldA B_i incB beta (C + ldC * i) 1.

(** The blocks of the recursive kernel for a split at [n1]: the bottom
    block of A, the right block of B, and the dense matrix-matrix call on
    the off-diagonal quadrant of C (bottom-left when lower, top-right when
    upper). *)
Definition A_bottom (transA : ascii) (A ldA n1 : Z) : Z :=
  if Ascii.eqb transA "N" then A + n1 else A + ldA * n1.

Definition B_right (transB : ascii) (B ldB n1 : Z) : Z :=
  if Ascii.eqb transB "N" then B + ldB * n1 else B + n1.

Definition rec_dgemm (uplo transA transB : ascii) (n n1 k : Z) (alpha : R)
    (A ldA B ldB : Z) (beta : R) (C ldC : Z) : call :=
  if Ascii.eqb uplo "L"
  then Dgemm transA transB (n - n1) n1 k alpha (A_bottom transA A ldA n1) ldA
             B ldB beta (C + n1) ldC
  else Dgemm transA transB n1 (n - n1) k alpha A ldA
             (B_right transB B ldB n1) ldB beta (C + ldC * n1) ldC.

(** Entry (i, j) lies in the off-diagonal quadrant that [rec_dgemm] writes. *)
Definition in_block (lower : bool) (n n1 i j : Z) : Prop :=
  if lower then n1 <= i < n /\ 0 <= j < n1 else 0 <= i < n1 /\ n1 <= j < n.

(** What a kernel called on the n x n matrix at [C] guarantees of the state
    [st'] it returns from [st]: the selected triangle is updated, the rest
    of the store is as before, and the calls it added are dense primitive
    calls with the scalars [alpha] and [beta] that write each address of the
    triangle once and nothing else. *)
Definition kernel_post (uplo transA transB : ascii) (n k : Z) (alpha : R)
    (A ldA B ldB : Z) (beta : R) (C ldC : Z) (st st' : state) : Prop :=
  triangle_updated (Ascii.eqb uplo "L") transA transB n k alpha A ldA B ldB beta
    C ldC (Cmem st) (Cmem st') /\
  rest_unchanged (Ascii.eqb uplo "L") n C ldC (Cmem st) (Cmem st') /\
  exists t, calls st' = calls st ++ t /\
            each_once (Ascii.eqb uplo "L") n C ldC t /\
            Forall (dense_with alpha beta) t.

(** The constraints of the entry point in the order the specification
    gives (triangle, transA, transB, n, k, ldA, ldB, ldC), each with the
    1-based index of its parameter; [true] is a constraint that holds. *)
Definition constraints (uplo transA transB : ascii) (n k ldA ldB ldC : Z)
    : list (bool * Z) :=
  [ (lsame uplo "L" || lsame uplo "U", 1);
    (lsame transA "N" || lsame transA "T", 2);
    (lsame transB "N" || lsame transB "T", 3);
    (0 <=? n, 4);
    (0 <=? k, 5);
    (Z.max 1 (if lsame transA "N" then n else k) <=? ldA, 8);
    (Z.max 1 (if lsame transB "N" then k else n) <=? ldB, 10);
    (Z.max 1 n <=? ldC, 13) ].

(** The index of the first constraint that is violated, if any. *)
Definition first_violation (cs : list (bool * Z)) : option Z :=
  option_map snd (find (fun c => negb (fst c)) cs).

(** The canonical form of a selector. *)
Definition canon_uplo (uplo : ascii) : ascii :=
  if lsame uplo "L" then "L"%char else "U"%char.

Definition canon_trans (trans : ascii) : ascii :=
  if lsame trans "N" then "N"%char else "T"%char.

(** What the comparator must do on the canonical characters themselves. *)
Definition lsame_canonical : Prop :=
  lsame "L" "L" = true /\ lsame "U" "U" = true /\ lsame "U" "L" = false /\
  lsame "N" "N" = true /\ lsame "T" "T" = true /\ lsame "T" "N" = false.

(** *** Vocabulary for the calls a kernel makes *)

Definition is_dgemv (c : call) : bool :=
  match c with Dgemv _ _ _ _ _ _ _ _ _ _ _ => true | _ => false end.

Definition is_dgemm (c : call) : bool :=
  match c with Dgemm _ _ _ _ _ _ _ _ _ _ _ _ _ => true | _ => false end.

Definition count_calls (p : call -> bool) (t : list call) : nat :=
  List.length (filter p t).

(** The number of entries of [C] a dense call writes: the m x n block of a
    dgemm, the output vector of a dgemv. *)
Definition entries_written (c : call) : Z :=
  match c with
  | Dgemm _ _ m n _ _ _ _ _ _ _ _ _ => Z.max 0 m * Z.max 0 n
  | Dgemv trans m n _ _ _ _ _ _ _ _ => Z.max 0 (if Ascii.eqb trans "N" then m else n)
  | _ => 0
  end.

Definition total_written (t : list call) : Z :=
  fold_right (fun c acc => entries_written c + acc) 0 t.

(** The arguments of a dense call are conformant, in the sense in which the
    entry point checks its own: no dimension is negative and the block
    written is not empty, each leading dimension is at least max(1, rows of
    the operand as stored), and no increment is zero. *)
Definition call_conforms (c : call) : bool :=
  match c with
  | Dgemm tA tB m n k _ _ ldA _ ldB _ _ ldC =>
      (0 <? m) && (0 <? n) && (0 <=? k)
      && (Z.max 1 (if Ascii.eqb tA "N" then m else k) <=? ldA)
      && (Z.max 1 (if Ascii.eqb tB "N" then k else n) <=? ldB)
      && (Z.max 1 m <=? ldC)
  | Dgemv trans m n _ _ ldA _ incX _ _ incY =>
      (0 <=? m) && (0 <=? n) && (0 <? (if Ascii.eqb trans "N" then m else n))
      && (Z.max 1 m <=? ldA) && negb (incX =? 0) && negb (incY =? 0)
  | _ => false
  end.

(** The constraints of the entry point on the sizes, as the kernels receive
    them (the selectors are canonical there). *)
Definition dims_ok (transA transB : ascii) (n k ldA ldB ldC : Z) : Prop :=
  0 <= n /\ 0 <= k /\
  Z.max 1 (if Ascii.eqb transA "N" then n else k) <= ldA /\
  Z.max 1 (if Ascii.eqb transB "N" then k else n) <= ldB /\
  Z.max 1 n <= ldC.

(** What is true of the calls a kernel adds on an n x n problem: n of them
    are dgemv calls, fewer than max(1, n) are dgemm calls (none at or below
    the threshold), together they write n(n+1)/2 entries, and each has
    conformant arguments. *)
Definition calls_facts (n : Z) (t : list call) : Prop :=
  Z.of_nat (count_calls is_dgemv t) = n /\
  Z.of_nat (count_calls is_dgemm t) < Z.max 1 n /\
  (n <= MAX CROSSOVER_DGEMMT 1 -> count_calls is_dgemm t = 0%nat) /\
  2 * total_written t = n * (n + 1) /\
  forallb call_conforms t = true.

(** The three things the recursive kernel does above the threshold (lines
    110-120), each as a step of its own from an arbitrary state, so that
    they can be run in another order. *)
Inductive step : Type := TopLeft | Dense | BottomRight.

Definition run_step (fuel : nat) (uplo transA transB : ascii) (n k : Z)
    (alpha : R) (A ldA B ldB : Z) (beta : R) (C ldC : Z) (s : step)
    (st : state) : option state :=
  let n1 := DREC_SPLIT n in
  match s with
  | TopLeft =>
      RELAPACK_dgemmt_rec fuel uplo transA transB n1 k alpha A ldA B ldB beta C ldC st
  | Dense =>
      let c := rec_dgemm uplo transA transB n n1 k alpha A ldA B ldB beta C ldC in
      Some (log c (run_call c (Cmem st)) st)
  | BottomRight =>
      RELAPACK_dgemmt_rec fuel uplo transA transB (n - n1) k alpha
        (A_bottom transA A ldA n1) ldA (B_right transB B ldB n1) ldB beta
        (C + ldC * n1 + n1) ldC st
  end.

Fixpoint run_steps (fuel : nat) (uplo transA transB : ascii) (n k : Z)
    (alpha : R) (A ldA B ldB : Z) (beta : R) (C ldC : Z) (l : list step)
    (st : state) : option state :=
  match l with
  | [] => Some st
  | s :: l' =>
      match run_step fuel uplo transA transB n k alpha A ldA B ldB beta C ldC s st with
      | None => None
      | Some st' =>
          run_steps fuel uplo transA transB n k alpha A ldA B ldB beta C ldC l' st'
      end
  end.

(** The addresses of [C] a step is in charge of. *)
Definition step_region (uplo transA transB : ascii) (n k : Z) (alpha : R)
    (A ldA B ldB : Z) (beta : R) (C ldC : Z) (s : step) (a : Z) : Prop :=
  let n1 := DREC_SPLIT n in
  match s with
  | TopLeft => tri_addr (Ascii.eqb uplo "L") n1 C ldC a
  | Dense =>
      touches a (rec_dgemm uplo transA transB n n1 k alpha A ldA B ldB beta C ldC) = true
  | BottomRight => tri_addr (Ascii.eqb uplo "L") (n - n1) (C + ldC * n1 + n1) ldC a
  end.

(** The product entry for the entry of the matrix at [C] that address [a]
    holds. *)
Definition entry_at (transA transB : ascii) (k : Z) (alpha : R)
    (A ldA B ldB : Z) (beta : R) (C ldC : Z) (a : Z) (c : R) : R :=
  gemm_entry transA transB k alpha A ldA B ldB beta
    ((a - C) mod ldC) ((a - C) / ldC) c.

(** Store [c1] is [c0] with every address of [P] rewritten by [F] from its
    own content, and nothing else changed. *)
Definition acts_on (P : Z -> Prop) (F : Z -> R -> R) (c0 c1 : store) : Prop :=
  (forall a, P a -> c1 a = F a (c0 a)) /\ (forall a, ~ P a -> c1 a = c0 a).

(** The six orders of the three steps. *)
Definition step_orders : list (list step) :=
  [ [TopLeft; Dense; BottomRight]; [TopLeft; BottomRight; Dense];
    [Dense; TopLeft; BottomRight]; [Dense; BottomRight; TopLeft];
    [BottomRight; TopLeft; Dense]; [BottomRight; Dense; TopLeft] ].

(** ** Int arithmetic in range *)

Lemma wrap_small (x : Z) : INT_MIN <= x <= INT_MAX -> wrap x = x.
Proof.
  unfold INT_MIN, INT_MAX, wrap. intros H.
  rewrite Z.mod_small by lia. lia.
Qed.

(** Closes the side condition of [wrap_small] for a sum, difference or
    product of bounded non-negative terms. *)
Ltac in_int_range := unfold INT_MIN; first [lia | nia].

Lemma MAX_max (a b : Z) : MAX a b = Z.max a b.
Proof. unfold MAX. destruct (Z.gtb_spec a b); lia. Qed.

Lemma products_in_int_elim (na nb : bool) (m ldA ldB ldC : Z) :
  products_in_int na nb m ldA ldB ldC = true ->
  ldC * m <= INT_MAX /\
  (na = false -> ldA * m <= INT_MAX) /\
  (nb = true -> ldB * m <= INT_MAX).
Proof.
  unfold products_in_int. rewrite !andb_true_iff, !orb_true_iff.
  rewrite !Z.leb_le. intros [[HC HA] HB]. repeat split; try assumption.
  - intros ->. destruct HA as [HA | HA]; [discriminate | exact HA].
  - intros ->. destruct HB as [HB | HB]; [discriminate | exact HB].
Qed.

Lemma offsets_in_int_elim (na nb : bool) (n ldA ldB ldC : Z) :
  offsets_in_int na nb n ldA ldB ldC = true ->
  n <= INT_MAX /\ ldC * (n - 1) <= INT_MAX /\
  (na = false -> ldA * (n - 1) <= INT_MAX) /\
  (nb = true -> ldB * (n - 1) <= INT_MAX).
Proof.
  unfold offsets_in_int. rewrite andb_true_iff, Z.leb_le. intros [Hn H].
  destruct (products_in_int_elim _ _ _ _ _ _ H) as (H1 & H2 & H3).
  repeat split; assumption.
Qed.

Lemma offsets_fit_small (fuel : nat) (na nb : bool) (n ldA ldB ldC : Z) :
  n <= MAX CROSSOVER_DGEMMT 1 ->
  offsets_fit (S fuel) na nb n ldA ldB ldC = true ->
  offsets_in_int na nb n ldA ldB ldC = true.
Proof.
  intros Hn. simpl.
  destruct (Z.leb_spec n (MAX CROSSOVER_DGEMMT 1)); [intros Hfit; exact Hfit | lia].
Qed.

Lemma offsets_fit_big (fuel : nat) (na nb : bool) (n ldA ldB ldC : Z) :
  MAX CROSSOVER_DGEMMT 1 < n ->
  offsets_fit (S fuel) na nb n ldA ldB ldC = true ->
  n <= INT_MAX /\
  products_in_int na nb (DREC_SPLIT n) ldA ldB ldC = true /\
  offsets_fit fuel na nb (DREC_SPLIT n) ldA ldB ldC = true /\
  offsets_fit fuel na nb (n - DREC_SPLIT n) ldA ldB ldC = true.
Proof.
  intros Hn. simpl. destruct (Z.leb_spec n (MAX CROSSOVER_DGEMMT 1)); [lia|].
  rewrite !andb_true_iff, Z.leb_le. intros [[[H1 H2] H3] H4].
  repeat split; assumption.
Qed.

(** ** Loops *)

Lemma zrange_length (cnt : nat) : forall i0, List.length (zrange i0 cnt) = cnt.
Proof. induction cnt as [|c IH]; intros i0; simpl; [reflexivity | now rewrite IH]. Qed.

Lemma zrange_In (cnt : nat) : forall i0 x,
  In x (zrange i0 cnt) <-> i0 <= x < i0 + Z.of_nat cnt.
Proof.
  induction cnt as [|c IH]; intros i0 x; simpl zrange.
  - simpl. lia.
  - simpl In. rewrite IH. lia.
Qed.

Lemma cell_unique (ld i j i' j' : Z) :
  0 <= i < ld -> 0 <= i' < ld -> i + j * ld = i' + j' * ld -> i = i' /\ j = j'.
Proof.
  intros Hi Hi' E.
  destruct (Z.div_mod_unique ld j j' i i') as [Hq Hr]; try lia.
Qed.

Lemma upd_same (m : store) (a : Z) (v : R) : upd m a v a = v.
Proof. unfold upd. now rewrite Z.eqb_refl. Qed.

Lemma upd_other (m : store) (a x : Z) (v : R) : x <> a -> upd m a v x = m x.
Proof. unfold upd. intros H. destruct (Z.eqb_spec x a); [contradiction | reflexivity]. Qed.

(** A loop whose iteration [j] rewrites the addresses [W j], each from its
    own previous content, when the [W j] are pairwise disjoint. *)
Section LocalLoop.
Variable body : Z -> store -> store.
Variable W : Z -> Z -> Prop.
Variable F : Z -> Z -> R -> R.
Variables lo hi : Z.
Hypothesis body_miss :
  forall j c a, lo <= j < hi -> ~ W j a -> body j c a = c a.
Hypothesis body_hit :
  forall j c a, lo <= j < hi -> W j a -> body j c a = F j a (c a).
Hypothesis W_disjoint :
  forall j j' a, lo <= j < hi -> lo <= j' < hi -> W j a -> W j' a -> j = j'.

Lemma iter_miss (cnt : nat) : forall i0 c a,
  lo <= i0 -> i0 + Z.of_nat cnt <= hi ->
  (forall j, i0 <= j < i0 + Z.of_nat cnt -> ~ W j a) ->
  iter_from cnt i0 body c a = c a.
Proof.
  induction cnt as [|n IH]; intros i0 c a Hlo Hhi Hm; simpl; [reflexivity|].
  rewrite IH; try lia.
  - apply body_miss; [lia | apply Hm; lia].
  - intros j Hj. apply Hm. lia.
Qed.

Lemma iter_hit (cnt : nat) : forall i0 c a j,
  lo <= i0 -> i0 + Z.of_nat cnt <= hi ->
  i0 <= j < i0 + Z.of_nat cnt -> W j a ->
  iter_from cnt i0 body c a = F j a (c a).
Proof.
  induction cnt as [|n IH]; intros i0 c a j Hlo Hhi Hj Hw; simpl; [lia|].
  destruct (Z.eq_dec j i0) as [-> | Hne].
  - rewrite iter_miss; try lia.
    + apply body_hit; [lia | assumption].
    + intros j' Hj' Hw'.
      assert (j' = i0) by (apply (W_disjoint j' i0 a); try lia; assumption). lia.
  - rewrite (IH (i0 + 1) (body i0 c) a j); try lia; try assumption.
    f_equal. apply body_miss; [lia|].
    intros Hw'. apply Hne. apply (W_disjoint j i0 a); try lia; assumption.
Qed.
End LocalLoop.

Lemma iter_ext {S : Type} (f g : Z -> S -> S) (cnt : nat) : forall i0 s,
  (forall i x, i0 <= i < i0 + Z.of_nat cnt -> f i x = g i x) ->
  iter_from cnt i0 f s = iter_from cnt i0 g s.
Proof.
  induction cnt as [|n IH]; intros i0 s H; simpl; [reflexivity|].
  rewrite H by lia. apply IH. intros i x Hi. apply H. lia.
Qed.

Lemma dot_ext (k : Z) (a b a' b' : Z -> R) :
  (forall l, 0 <= l < k -> a l = a' l /\ b l = b' l) ->
  dot k a b = dot k a' b'.
Proof.
  intros H. unfold dot, for_range. apply iter_ext.
  intros l acc Hl. destruct (H l) as [-> ->]; [lia | reflexivity].
Qed.

(** A loop of logged calls: the store goes through the calls' updates and
    the calls are appended in order. *)
Lemma iter_log (ev : Z -> call) (bs : Z -> store -> store) (cnt : nat) :
  forall i0 st,
  iter_from cnt i0 (fun i s => log (ev i) (bs i (Cmem s)) s) st =
  mkState (iter_from cnt i0 bs (Cmem st)) (calls st ++ map ev (zrange i0 cnt)).
Proof.
  induction cnt as [|n IH]; intros i0 st; simpl.
  - rewrite app_nil_r. now destruct st.
  - rewrite IH. unfold log. simpl. now rewrite <- app_assoc.
Qed.

Lemma for_range_miss (body : Z -> store -> store) (W : Z -> Z -> Prop)
    (n : Z) (c : store) (a : Z) :
  (forall j c a, 0 <= j < n -> ~ W j a -> body j c a = c a) ->
  (forall j, 0 <= j < n -> ~ W j a) ->
  for_range n body c a = c a.
Proof.
  intros Hm Ha. unfold for_range.
  apply (iter_miss body W 0 (Z.of_nat (Z.to_nat n))); try lia.
  - intros j c' a' Hj. apply Hm. lia.
  - intros j Hj. apply Ha. lia.
Qed.

Lemma for_range_hit (body : Z -> store -> store) (W : Z -> Z -> Prop)
    (F : Z -> Z -> R -> R) (n : Z) (c : store) (a j : Z) :
  (forall j c a, 0 <= j < n -> ~ W j a -> body j c a = c a) ->
  (forall j c a, 0 <= j < n -> W j a -> body j c a = F j a (c a)) ->
  (forall j j' a, 0 <= j < n -> 0 <= j' < n -> W j a -> W j' a -> j = j') ->
  0 <= j < n -> W j a ->
  for_range n body c a = F j a (c a).
Proof.
  intros Hm Hh Hd Hj Hw. unfold for_range.
  apply (iter_hit body W F 0 (Z.of_nat (Z.to_nat n))); try lia; try assumption.
  - intros j0 c' a' Hj0. apply Hm. lia.
  - intros j0 c' a' Hj0. apply Hh. lia.
  - intros j0 j1 a' Hj0 Hj1. apply Hd; lia.
Qed.

(** ** The dense primitives, entry by entry *)

Lemma vec_at_unit (len i : Z) : vec_at len 1 i = i.
Proof. unfold vec_at. simpl. lia. Qed.

Lemma vec_at_pos (len inc i : Z) : 0 <= inc -> vec_at len inc i = i * inc.
Proof. unfold vec_at. intros H. destruct (Z.ltb_spec inc 0); [lia | reflexivity]. Qed.

Section DensePrimitives.
Variables transA transB : ascii.
Variables m n k : Z.
Variables alpha beta : R.
Variables A ldA B ldB C ldC : Z.

Lemma dgemm_miss (c : store) (a : Z) :
  (forall i j, 0 <= i < m -> 0 <= j < n -> a <> C + i + j * ldC) ->
  dgemm_store transA transB m n k alpha A ldA B ldB beta C ldC c a = c a.
Proof.
  intros Ha. unfold dgemm_store.
  apply (for_range_miss _ (fun j x => exists i, 0 <= i < m /\ x = C + i + j * ldC)).
  - intros j c' a' Hj Hw.
    apply (for_range_miss _ (fun i x => x = C + i + j * ldC)).
    + intros i c'' a'' Hi Hne. now apply upd_other.
    + intros i Hi E. apply Hw. now exists i.
  - intros j Hj [i [Hi E]]. now apply (Ha i j).
Qed.

Lemma dgemm_hit (c : store) (i j : Z) :
  m <= ldC -> 0 <= i < m -> 0 <= j < n ->
  dgemm_store transA transB m n k alpha A ldA B ldB beta C ldC c (C + i + j * ldC) =
  gemm_entry transA transB k alpha A ldA B ldB beta i j (c (C + i + j * ldC)).
Proof.
  intros Hld Hi Hj. unfold dgemm_store.
  rewrite (for_range_hit _
    (fun j x => exists i, 0 <= i < m /\ x = C + i + j * ldC)
    (fun j x v => gemm_entry transA transB k alpha A ldA B ldB beta
                    (x - C - j * ldC) j v) n c (C + i + j * ldC) j).
  - f_equal. lia.
  - intros j0 c' a' Hj0 Hw.
    apply (for_range_miss _ (fun i x => x = C + i + j0 * ldC)).
    + intros i0 c'' a'' Hi0 Hne. now apply upd_other.
    + intros i0 Hi0 E. apply Hw. now exists i0.
  - intros j0 c' a' Hj0 [i0 [Hi0 ->]].
    rewrite (for_range_hit _ (fun i x => x = C + i + j0 * ldC)
      (fun i x v => gemm_entry transA transB k alpha A ldA B ldB beta i j0 v)
      m c' (C + i0 + j0 * ldC) i0).
    + f_equal. lia.
    + intros i1 c'' a'' Hi1 Hne. now apply upd_other.
    + intros i1 c'' a'' Hi1 ->. cbv zeta. now rewrite upd_same.
    + intros i1 i2 a'' _ _ -> E. lia.
    + assumption.
    + reflexivity.
  - intros j0 j1 a' Hj0 Hj1 [i0 [Hi0 ->]] [i1 [Hi1 E]].
    assert (i0 + j0 * ldC = i1 + j1 * ldC) as E' by lia.
    apply cell_unique in E'; lia.
  - assumption.
  - now exists i.
Qed.
End DensePrimitives.

Section DenseVector.
Variable trans : ascii.
Variables m n : Z.
Variables alpha beta : R.
Variables A ldA X incX Y : Z.

Lemma dgemv_miss (incY : Z) (c : store) (a : Z) :
  (forall i, 0 <= i < (if Ascii.eqb trans "N" then m else n) ->
             a <> Y + vec_at (if Ascii.eqb trans "N" then m else n) incY i) ->
  dgemv_store trans m n alpha A ldA X incX beta Y incY c a = c a.
Proof.
  intros Ha. unfold dgemv_store.
  apply (for_range_miss _
    (fun i x => x = Y + vec_at (if Ascii.eqb trans "N" then m else n) incY i)).
  - intros i c' a' Hi Hne. cbv zeta. now apply upd_other.
  - intros i Hi E. now apply (Ha i).
Qed.

Lemma dgemv_hit (c : store) (i : Z) :
  0 <= i < (if Ascii.eqb trans "N" then m else n) ->
  dgemv_store trans m n alpha A ldA X incX beta Y 1 c (Y + i) =
  gemv_entry trans m n alpha A ldA X incX beta i (c (Y + i)).
Proof.
  intros Hi. unfold dgemv_store.
  apply (for_range_hit _ (fun i x => x = Y + i)
    (fun i x v => gemv_entry trans m n alpha A ldA X incX beta i v)).
  - intros i0 c' a' Hi0 Hne. cbv zeta. rewrite vec_at_unit. now apply upd_other.
  - intros i0 c' a' Hi0 ->. cbv zeta. rewrite vec_at_unit. now rewrite upd_same.
  - intros i0 i1 a' _ _ -> E. lia.
  - assumption.
  - reflexivity.
Qed.
End DenseVector.

(** ** Which addresses a call writes *)

Lemma existsb_zrange (f : Z -> bool) (n : Z) :
  existsb f (zrange 0 (Z.to_nat n)) = true <-> exists i, 0 <= i < n /\ f i = true.
Proof.
  rewrite existsb_exists. split; intros [i [Hi Hf]]; exists i; split; try assumption.
  - apply zrange_In in Hi. lia.
  - apply zrange_In. lia.
Qed.

Lemma touches_dgemm (a : Z) (tA tB : ascii) (m n k : Z) (al be : R)
    (A ldA B ldB C ldC : Z) :
  touches a (Dgemm tA tB m n k al A ldA B ldB be C ldC) = true <->
  exists i j, 0 <= i < m /\ 0 <= j < n /\ a = C + i + j * ldC.
Proof.
  simpl. rewrite existsb_zrange. split.
  - intros [j [Hj H]]. apply existsb_zrange in H. destruct H as [i [Hi E]].
    apply Z.eqb_eq in E. now exists i, j.
  - intros [i [j [Hi [Hj E]]]]. exists j. split; [assumption|].
    apply existsb_zrange. exists i. split; [assumption | now apply Z.eqb_eq].
Qed.

Lemma touches_dgemv (a : Z) (tr : ascii) (m n : Z) (al be : R)
    (A ldA X incX Y incY : Z) :
  touches a (Dgemv tr m n al A ldA X incX be Y incY) = true <->
  exists i, 0 <= i < (if Ascii.eqb tr "N" then m else n) /\
            a = Y + vec_at (if Ascii.eqb tr "N" then m else n) incY i.
Proof.
  simpl. rewrite existsb_zrange.
  split; intros [i [Hi E]]; exists i; (split; [assumption|]); now apply Z.eqb_eq.
Qed.

Lemma run_call_untouched (alpha beta : R) (c : call) (m : store) (a : Z) :
  dense_with alpha beta c -> touches a c = false -> run_call c m a = m a.
Proof.
  destruct c as [nm inf | | tA tB m' n k al A ldA B ldB be C ldC
                | tr m' n al A ldA X incX be Y incY]; simpl dense_with;
    intros Hd Ht; try contradiction.
  - apply dgemm_miss. intros i j Hi Hj E.
    assert (touches a (Dgemm tA tB m' n k al A ldA B ldB be C ldC) = true) as T
      by (apply touches_dgemm; now exists i, j).
    congruence.
  - apply dgemv_miss. intros i Hi E.
    assert (touches a (Dgemv tr m' n al A ldA X incX be Y incY) = true) as T
      by (apply touches_dgemv; now exists i).
    congruence.
Qed.

Lemma touch_count_app (a : Z) (t1 t2 : list call) :
  touch_count a (t1 ++ t2) = (touch_count a t1 + touch_count a t2)%nat.
Proof. unfold touch_count. now rewrite filter_app, length_app. Qed.

Lemma touch_count_none (a : Z) (ev : Z -> call) (l : list Z) :
  (forall i, In i l -> touches a (ev i) = false) ->
  touch_count a (map ev l) = 0%nat.
Proof.
  unfold touch_count. induction l as [|x l IH]; intros H; simpl; [reflexivity|].
  rewrite (H x) by now left. apply IH. intros i Hi. apply H. now right.
Qed.

Lemma touch_count_one (a : Z) (ev : Z -> call) (j : Z) (cnt : nat) :
  forall i0, i0 <= j < i0 + Z.of_nat cnt ->
  touches a (ev j) = true ->
  (forall i, i0 <= i < i0 + Z.of_nat cnt -> i <> j -> touches a (ev i) = false) ->
  touch_count a (map ev (zrange i0 cnt)) = 1%nat.
Proof.
  induction cnt as [|c IH]; intros i0 Hj Ht Hf; [lia|].
  simpl zrange. simpl map. change (ev i0 :: map ev (zrange (i0 + 1) c))
    with ([ev i0] ++ map ev (zrange (i0 + 1) c)).
  rewrite touch_count_app.
  destruct (Z.eq_dec j i0) as [-> | Hne].
  - rewrite touch_count_none.
    + unfold touch_count. simpl. now rewrite Ht.
    + intros i Hi. apply zrange_In in Hi. apply Hf; lia.
  - rewrite IH; try lia; try assumption.
    + unfold touch_count. simpl. rewrite Hf by lia. reflexivity.
    + intros i Hi. apply Hf. lia.
Qed.

(** ** The unblocked kernel *)

Lemma rec2_loop_for (body : Z -> state -> state) (n : Z) (cnt : nat) :
  forall i st, 0 <= i -> i + Z.of_nat cnt <= n -> n <= INT_MAX ->
  rec2_loop cnt n i body st = iter_from cnt i body st.
Proof.
  induction cnt as [|c IH]; intros i st Hi Hc Hn; simpl; [reflexivity|].
  destruct (Z.ltb_spec i n); [|lia].
  unfold int_add. rewrite wrap_small by in_int_range.
  apply IH; lia.
Qed.

Section Unblocked.
Variables uplo transA transB : ascii.
Variables n k : Z.
Variables alpha beta : R.
Variables A ldA B ldB C ldC : Z.
Hypothesis n_ldC : 0 <= n <= ldC.
Hypothesis ldA_pos : 0 <= ldA.
Hypothesis ldB_pos : 0 <= ldB.
Hypothesis in_int :
  offsets_in_int (Ascii.eqb transA "N") (Ascii.eqb transB "N") n ldA ldB ldC = true.

Lemma rec2_body_call (i : Z) (st : state) :
  0 <= i < n ->
  rec2_body uplo transA transB n k alpha A ldA B ldB beta C ldC
    (if Ascii.eqb transB "N" then 1 else ldB) 1 i st =
  let c := rec2_call uplo transA transB n k alpha A ldA B ldB beta C ldC i in
  log c (run_call c (Cmem st)) st.
Proof.
  intros Hi.
  destruct (offsets_in_int_elim _ _ _ _ _ _ in_int) as (H1 & H2 & H3 & H4).
  unfold rec2_body, rec2_call, int_mul, int_sub, int_add. cbv zeta.
  rewrite (wrap_small (ldC * i)) by in_int_range.
  rewrite (wrap_small (n - i)) by in_int_range.
  rewrite (wrap_small (i + 1)) by in_int_range.
  destruct (Ascii.eqb transA "N") eqn:EA; destruct (Ascii.eqb transB "N") eqn:EB;
    try (specialize (H3 eq_refl)); try (specialize (H4 eq_refl));
    try rewrite (wrap_small (ldA * i)) by in_int_range;
    try rewrite (wrap_small (ldB * i)) by in_int_range;
    destruct (Ascii.eqb uplo "L"); reflexivity.
Qed.

Lemma rec2_unfold (st : state) :
  RELAPACK_dgemmt_rec2 uplo transA transB n k alpha A ldA B ldB beta C ldC st =
  mkState
    (for_range n (fun i =>
       run_call (rec2_call uplo transA transB n k alpha A ldA B ldB beta C ldC i))
       (Cmem st))
    (calls st ++
     map (rec2_call uplo transA transB n k alpha A ldA B ldB beta C ldC)
         (zrange 0 (Z.to_nat n))).
Proof.
  destruct (offsets_in_int_elim _ _ _ _ _ _ in_int) as (H1 & _).
  unfold RELAPACK_dgemmt_rec2. cbv zeta.
  rewrite rec2_loop_for by lia.
  set (ev := rec2_call uplo transA transB n k alpha A ldA B ldB beta C ldC).
  rewrite (iter_ext _ (fun i s => log (ev i) ((fun j => run_call (ev j)) i (Cmem s)) s)).
  - unfold for_range. apply (iter_log ev (fun j => run_call (ev j))).
  - intros i x Hi. apply rec2_body_call. lia.
Qed.

Lemma gemv_is_gemm_entry (m' n' A' r0 r' i : Z) (c : R) :
  (if Ascii.eqb transA "N" then n' else m') = k ->
  A' = A + (if Ascii.eqb transA "N" then r0 else ldA * r0) ->
  gemv_entry transA m' n' alpha A' ldA
    (if Ascii.eqb transB "N" then B + ldB * i else B + i)
    (if Ascii.eqb transB "N" then 1 else ldB) beta r' c =
  gemm_entry transA transB k alpha A ldA B ldB beta (r0 + r') i c.
Proof.
  clear in_int n_ldC.
  intros Hk HA. unfold gemv_entry, gemm_entry. cbv zeta. rewrite Hk.
  do 2 f_equal. apply dot_ext. intros l Hl. split.
  - unfold op_entry. subst A'. destruct (Ascii.eqb transA "N"); f_equal; ring.
  - unfold op_entry. destruct (Ascii.eqb transB "N").
    + rewrite vec_at_unit. f_equal; ring.
    + rewrite vec_at_pos by assumption. f_equal; ring.
Qed.

Lemma rec2_call_dense (i : Z) :
  dense_with alpha beta
    (rec2_call uplo transA transB n k alpha A ldA B ldB beta C ldC i).
Proof.
  clear. unfold rec2_call. cbv zeta.
  destruct (Ascii.eqb uplo "L"), (Ascii.eqb transA "N"); simpl; auto.
Qed.

Lemma rec2_call_touches (a i : Z) :
  touches a (rec2_call uplo transA transB n k alpha A ldA B ldB beta C ldC i) = true <->
  exists r, (if Ascii.eqb uplo "L" then i <= r < n else 0 <= r <= i) /\
            a = C + r + i * ldC.
Proof.
  clear. unfold rec2_call. cbv zeta.
  destruct (Ascii.eqb uplo "L"), (Ascii.eqb transA "N") eqn:EA;
    rewrite touches_dgemv, EA; split.
  all: try (intros [r [Hr ->]]; rewrite vec_at_unit;
            first [ exists (i + r); split; [lia | ring]
                  | exists r; split; [lia | ring] ]).
  all: intros [r [Hr ->]];
       first [ exists (r - i); split; [lia | rewrite vec_at_unit; ring]
             | exists r; split; [lia | rewrite vec_at_unit; ring] ].
Qed.

Lemma rec2_call_hit (c : store) (r i : Z) :
  (if Ascii.eqb uplo "L" then i <= r < n else 0 <= r <= i) ->
  run_call (rec2_call uplo transA transB n k alpha A ldA B ldB beta C ldC i) c
           (C + r + i * ldC) =
  gemm_entry transA transB k alpha A ldA B ldB beta r i (c (C + r + i * ldC)).
Proof.
  clear in_int n_ldC.
  intros Hr. unfold rec2_call. cbv zeta.
  destruct (Ascii.eqb uplo "L").
  - replace (C + r + i * ldC) with (C + ldC * i + i + (r - i)) by ring.
    destruct (Ascii.eqb transA "N") eqn:EA; simpl run_call;
      (rewrite dgemv_hit by (rewrite EA; lia));
      (rewrite (gemv_is_gemm_entry _ _ _ i (r - i) i) by (rewrite EA; reflexivity));
      replace (i + (r - i)) with r by ring; reflexivity.
  - replace (C + r + i * ldC) with (C + ldC * i + r) by ring.
    destruct (Ascii.eqb transA "N") eqn:EA; simpl run_call;
      (rewrite dgemv_hit by (rewrite EA; lia));
      (rewrite (gemv_is_gemm_entry _ _ _ 0 r i) by (rewrite EA; (reflexivity || ring)));
      reflexivity.
Qed.

Lemma column_unique (r j r' j' : Z) :
  (if Ascii.eqb uplo "L" then j <= r < n else 0 <= r <= j) -> 0 <= j < n ->
  (if Ascii.eqb uplo "L" then j' <= r' < n else 0 <= r' <= j') -> 0 <= j' < n ->
  C + r + j * ldC = C + r' + j' * ldC -> r = r' /\ j = j'.
Proof.
  clear in_int. intros Hr Hj Hr' Hj' E.
  apply (cell_unique ldC); destruct (Ascii.eqb uplo "L"); lia.
Qed.

Lemma rec2_call_untouched (c : store) (a j : Z) :
  ~ (exists r, (if Ascii.eqb uplo "L" then j <= r < n else 0 <= r <= j) /\
               a = C + r + j * ldC) ->
  run_call (rec2_call uplo transA transB n k alpha A ldA B ldB beta C ldC j) c a = c a.
Proof.
  clear in_int n_ldC ldA_pos ldB_pos.
  intros Hw. apply (run_call_untouched alpha beta); [apply rec2_call_dense|].
  destruct (touches a _) eqn:T; [|reflexivity].
  apply rec2_call_touches in T. contradiction.
Qed.

Lemma rec2_updates (st : state) :
  triangle_updated (Ascii.eqb uplo "L") transA transB n k alpha A ldA B ldB beta
    C ldC (Cmem st)
    (Cmem (RELAPACK_dgemmt_rec2 uplo transA transB n k alpha A ldA B ldB beta C ldC st)).
Proof.
  rewrite rec2_unfold. simpl Cmem. intros i j (Hi & Hj & Hij).
  rewrite (for_range_hit _
    (fun j a => exists r, (if Ascii.eqb uplo "L" then j <= r < n else 0 <= r <= j)
                          /\ a = C + r + j * ldC)
    (fun j a v => gemm_entry transA transB k alpha A ldA B ldB beta
                    (a - C - j * ldC) j v) n (Cmem st) (C + i + j * ldC) j).
  - f_equal. ring.
  - intros j0 c a Hj0 Hw. now apply rec2_call_untouched.
  - intros j0 c a Hj0 [r [Hr ->]]. rewrite rec2_call_hit by assumption.
    f_equal. ring.
  - intros j0 j1 a Hj0 Hj1 [r0 [Hr0 ->]] [r1 [Hr1 E]].
    now destruct (column_unique r0 j0 r1 j1).
  - assumption.
  - exists i. split; [|reflexivity]. destruct (Ascii.eqb uplo "L"); lia.
Qed.

Lemma rec2_frame (st : state) :
  rest_unchanged (Ascii.eqb uplo "L") n C ldC (Cmem st)
    (Cmem (RELAPACK_dgemmt_rec2 uplo transA transB n k alpha A ldA B ldB beta C ldC st)).
Proof.
  rewrite rec2_unfold. simpl Cmem. intros a Ha.
  apply (for_range_miss _
    (fun j a => exists r, (if Ascii.eqb uplo "L" then j <= r < n else 0 <= r <= j)
                          /\ a = C + r + j * ldC)).
  - intros j0 c a0 Hj0 Hw. now apply rec2_call_untouched.
  - intros j Hj [r [Hr ->]]. apply Ha. exists r, j. split; [|reflexivity].
    unfold tri. destruct (Ascii.eqb uplo "L"); lia.
Qed.

Lemma rec2_each_once :
  each_once (Ascii.eqb uplo "L") n C ldC
    (map (rec2_call uplo transA transB n k alpha A ldA B ldB beta C ldC)
         (zrange 0 (Z.to_nat n))).
Proof.
  clear in_int ldA_pos ldB_pos.
  intros a. split.
  - intros [i [j [(Hi & Hj & Hij) ->]]].
    apply (touch_count_one _ _ j); try lia.
    + apply rec2_call_touches. exists i. split; [|reflexivity].
      destruct (Ascii.eqb uplo "L"); lia.
    + intros j' Hj' Hne.
      destruct (touches _ _) eqn:T; [|reflexivity].
      apply rec2_call_touches in T. destruct T as [r [Hr E]].
      destruct (column_unique i j r j'); try lia; try assumption.
      destruct (Ascii.eqb uplo "L"); lia.
  - intros Ha. apply touch_count_none. intros j Hj. apply zrange_In in Hj.
    destruct (touches _ _) eqn:T; [|reflexivity].
    apply rec2_call_touches in T. destruct T as [r [Hr ->]].
    exfalso. apply Ha. exists r, j. split; [|reflexivity].
    unfold tri. destruct (Ascii.eqb uplo "L"); lia.
Qed.

End Unblocked.

(** ** The recursive kernel *)

Section Recursive.
Variables uplo transA transB : ascii.
Variable k : Z.
Variables alpha beta : R.
Variables ldA ldB ldC : Z.
Hypothesis ldA_pos : 0 <= ldA.
Hypothesis ldB_pos : 0 <= ldB.

Lemma rec_small (fuel : nat) (n A B C : Z) (st : state) :
  n <= MAX CROSSOVER_DGEMMT 1 ->
  RELAPACK_dgemmt_rec (S fuel) uplo transA transB n k alpha A ldA B ldB beta C ldC st =
  Some (RELAPACK_dgemmt_rec2 uplo transA transB n k alpha A ldA B ldB beta C ldC st).
Proof.
  intros H. simpl. destruct (Z.leb_spec n (MAX CROSSOVER_DGEMMT 1)); [reflexivity | lia].
Qed.

Lemma rec_split (fuel : nat) (n A B C : Z) (st : state) :
  MAX CROSSOVER_DGEMMT 1 < n -> 0 < DREC_SPLIT n < n -> 0 <= ldC ->
  n <= INT_MAX ->
  products_in_int (Ascii.eqb transA "N") (Ascii.eqb transB "N") (DREC_SPLIT n)
    ldA ldB ldC = true ->
  RELAPACK_dgemmt_rec (S fuel) uplo transA transB n k alpha A ldA B ldB beta C ldC st =
  let n1 := DREC_SPLIT n in
  match RELAPACK_dgemmt_rec fuel uplo transA transB n1 k alpha A ldA B ldB beta C ldC st with
  | None => None
  | Some st1 =>
    let c := rec_dgemm uplo transA transB n n1 k alpha A ldA B ldB beta C ldC in
    RELAPACK_dgemmt_rec fuel uplo transA transB (n - n1) k alpha
      (A_bottom transA A ldA n1) ldA (B_right transB B ldB n1) ldB beta
      (C + ldC * n1 + n1) ldC (log c (run_call c (Cmem st1)) st1)
  end.
Proof.
  intros Hn Hs HC H1 Hint.
  destruct (products_in_int_elim _ _ _ _ _ _ Hint) as (H2 & H3 & H4).
  simpl RELAPACK_dgemmt_rec.
  destruct (Z.leb_spec n (MAX CROSSOVER_DGEMMT 1)); [lia|].
  cbv zeta. unfold int_sub, int_mul, rec_dgemm, A_bottom, B_right.
  rewrite (wrap_small (n - DREC_SPLIT n)) by in_int_range.
  rewrite (wrap_small (ldC * DREC_SPLIT n)) by in_int_range.
  destruct (RELAPACK_dgemmt_rec fuel uplo transA transB (DREC_SPLIT n) k alpha
              A ldA B ldB beta C ldC st) as [st1|]; [|reflexivity].
  destruct (Ascii.eqb transA "N") eqn:EA; destruct (Ascii.eqb transB "N") eqn:EB;
    try (specialize (H3 eq_refl)); try (specialize (H4 eq_refl));
    try rewrite (wrap_small (ldA * DREC_SPLIT n)) by in_int_range;
    try rewrite (wrap_small (ldB * DREC_SPLIT n)) by in_int_range;
    destruct (Ascii.eqb uplo "L"); reflexivity.
Qed.

Lemma gemm_entry_shift (A B r0 c0 i j : Z) (c : R) :
  gemm_entry transA transB k alpha (A_bottom transA A ldA r0) ldA
    (B_right transB B ldB c0) ldB beta i j c =
  gemm_entry transA transB k alpha A ldA B ldB beta (r0 + i) (c0 + j) c.
Proof.
  unfold gemm_entry, A_bottom, B_right, op_entry. do 2 f_equal.
  apply dot_ext. intros l Hl. split.
  - destruct (Ascii.eqb transA "N"); f_equal; ring.
  - destruct (Ascii.eqb transB "N"); f_equal; ring.
Qed.

Lemma gemm_entry_shift_A (A B r0 i j : Z) (c : R) :
  gemm_entry transA transB k alpha (A_bottom transA A ldA r0) ldA B ldB beta i j c =
  gemm_entry transA transB k alpha A ldA B ldB beta (r0 + i) j c.
Proof.
  unfold gemm_entry, A_bottom, op_entry. do 2 f_equal.
  apply dot_ext. intros l Hl. split; [|reflexivity].
  destruct (Ascii.eqb transA "N"); f_equal; ring.
Qed.

Lemma gemm_entry_shift_B (A B c0 i j : Z) (c : R) :
  gemm_entry transA transB k alpha A ldA (B_right transB B ldB c0) ldB beta i j c =
  gemm_entry transA transB k alpha A ldA B ldB beta i (c0 + j) c.
Proof.
  unfold gemm_entry, B_right, op_entry. do 2 f_equal.
  apply dot_ext. intros l Hl. split; [reflexivity|].
  destruct (Ascii.eqb transB "N"); f_equal; ring.
Qed.

(** *** One level of the recursion: the three regions *)

Section Split.
Variables n n1 A B C : Z.
Hypothesis n1_n : 0 < n1 < n.
Hypothesis n_ldC : n <= ldC.

Lemma TL_sub (a : Z) :
  tri_addr (Ascii.eqb uplo "L") n1 C ldC a ->
  tri_addr (Ascii.eqb uplo "L") n C ldC a.
Proof.
  intros [i [j [(Hi & Hj & Hij) ->]]]. exists i, j. split; [|reflexivity].
  unfold tri. repeat split; try lia. assumption.
Qed.

Lemma BR_sub (a : Z) :
  tri_addr (Ascii.eqb uplo "L") (n - n1) (C + ldC * n1 + n1) ldC a ->
  tri_addr (Ascii.eqb uplo "L") n C ldC a.
Proof.
  intros [i [j [(Hi & Hj & Hij) ->]]]. exists (n1 + i), (n1 + j). split; [|ring].
  unfold tri. repeat split; try lia. destruct (Ascii.eqb uplo "L"); lia.
Qed.

Lemma block_touches (a : Z) :
  touches a (rec_dgemm uplo transA transB n n1 k alpha A ldA B ldB beta C ldC) = true <->
  exists i j, in_block (Ascii.eqb uplo "L") n n1 i j /\ a = C + i + j * ldC.
Proof.
  unfold rec_dgemm, in_block. destruct (Ascii.eqb uplo "L"); rewrite touches_dgemm; split.
  - intros [i [j (Hi & Hj & ->)]]. exists (n1 + i), j. split; [lia | ring].
  - intros [i [j ((Hi & Hj) & ->)]]. exists (i - n1), j. repeat split; try lia; ring.
  - intros [i [j (Hi & Hj & ->)]]. exists i, (n1 + j). split; [lia | ring].
  - intros [i [j ((Hi & Hj) & ->)]]. exists i, (j - n1). repeat split; try lia; ring.
Qed.

Lemma block_sub (a : Z) :
  touches a (rec_dgemm uplo transA transB n n1 k alpha A ldA B ldB beta C ldC) = true ->
  tri_addr (Ascii.eqb uplo "L") n C ldC a.
Proof.
  intros H. apply block_touches in H. destruct H as [i [j [Hb ->]]].
  exists i, j. split; [|reflexivity].
  unfold in_block in Hb. unfold tri. destruct (Ascii.eqb uplo "L"); lia.
Qed.

Lemma TL_cell (i j : Z) :
  0 <= i < n ->
  tri_addr (Ascii.eqb uplo "L") n1 C ldC (C + i + j * ldC) ->
  tri (Ascii.eqb uplo "L") n1 i j.
Proof.
  intros Hi [i' [j' [Ht E]]].
  assert (i = i' /\ j = j') as [-> ->]; [|assumption].
  apply (cell_unique ldC); unfold tri in Ht; lia.
Qed.

Lemma BR_cell (i j : Z) :
  0 <= i < n ->
  tri_addr (Ascii.eqb uplo "L") (n - n1) (C + ldC * n1 + n1) ldC (C + i + j * ldC) ->
  tri (Ascii.eqb uplo "L") (n - n1) (i - n1) (j - n1).
Proof.
  intros Hi [i' [j' [Ht E]]].
  assert (i = n1 + i' /\ j = n1 + j') as [-> ->].
  { apply (cell_unique ldC); unfold tri in Ht; lia. }
  replace (n1 + i' - n1) with i' by ring. replace (n1 + j' - n1) with j' by ring.
  assumption.
Qed.

Lemma block_cell (i j : Z) :
  0 <= i < n ->
  touches (C + i + j * ldC)
    (rec_dgemm uplo transA transB n n1 k alpha A ldA B ldB beta C ldC) = true ->
  in_block (Ascii.eqb uplo "L") n n1 i j.
Proof.
  intros Hi H. apply block_touches in H. destruct H as [i' [j' [Hb E]]].
  assert (i = i' /\ j = j') as [-> ->]; [|assumption].
  apply (cell_unique ldC); unfold in_block in Hb;
    destruct (Ascii.eqb uplo "L"); lia.
Qed.

Lemma rec_dgemm_dense :
  dense_with alpha beta
    (rec_dgemm uplo transA transB n n1 k alpha A ldA B ldB beta C ldC).
Proof. unfold rec_dgemm. destruct (Ascii.eqb uplo "L"); simpl; auto. Qed.

Lemma rec_dgemm_hit (c : store) (i j : Z) :
  in_block (Ascii.eqb uplo "L") n n1 i j ->
  run_call (rec_dgemm uplo transA transB n n1 k alpha A ldA B ldB beta C ldC) c
           (C + i + j * ldC) =
  gemm_entry transA transB k alpha A ldA B ldB beta i j (c (C + i + j * ldC)).
Proof.
  unfold in_block, rec_dgemm. destruct (Ascii.eqb uplo "L"); intros [Hi Hj]; simpl run_call.
  - replace (C + i + j * ldC) with (C + n1 + (i - n1) + j * ldC) by ring.
    rewrite dgemm_hit by lia. rewrite gemm_entry_shift_A.
    replace (n1 + (i - n1)) with i by ring. reflexivity.
  - replace (C + i + j * ldC) with (C + ldC * n1 + i + (j - n1) * ldC) by ring.
    rewrite dgemm_hit by lia. rewrite gemm_entry_shift_B.
    replace (n1 + (j - n1)) with j by ring. reflexivity.
Qed.

(** An entry of the triangle lies in exactly one of the three regions. *)
Lemma classify (i j : Z) :
  tri (Ascii.eqb uplo "L") n i j ->
  let a := C + i + j * ldC in
  let c := rec_dgemm uplo transA transB n n1 k alpha A ldA B ldB beta C ldC in
  let TL := tri_addr (Ascii.eqb uplo "L") n1 C ldC a in
  let BR := tri_addr (Ascii.eqb uplo "L") (n - n1) (C + ldC * n1 + n1) ldC a in
  (tri (Ascii.eqb uplo "L") n1 i j /\ TL /\ ~ BR /\ touches a c = false) \/
  (in_block (Ascii.eqb uplo "L") n n1 i j /\ ~ TL /\ ~ BR /\ touches a c = true) \/
  (tri (Ascii.eqb uplo "L") (n - n1) (i - n1) (j - n1) /\ ~ TL /\ BR /\
   touches a c = false).
Proof.
  intros (Hi & Hj & Hij) a c TL BR.
  assert (TL -> i < n1 /\ j < n1) as HTL.
  { intros H. apply TL_cell in H; [|lia]. unfold tri in H. lia. }
  assert (BR -> n1 <= i /\ n1 <= j) as HBR.
  { intros H. apply BR_cell in H; [|lia]. unfold tri in H. lia. }
  assert (touches a c = true -> in_block (Ascii.eqb uplo "L") n n1 i j) as HB.
  { intros H. apply block_cell in H; [assumption | lia]. }
  destruct (Z.lt_ge_cases i n1) as [Hi1 | Hi1];
    destruct (Z.lt_ge_cases j n1) as [Hj1 | Hj1].
  - left. assert (tri (Ascii.eqb uplo "L") n1 i j) as Ht
      by (unfold tri; repeat split; try lia; assumption).
    repeat split; try apply Ht.
    + exists i, j. now split.
    + intros H. apply HBR in H. lia.
    + destruct (touches a c); [|reflexivity]. specialize (HB eq_refl).
      unfold in_block in HB. destruct (Ascii.eqb uplo "L"); lia.
  - right; left.
    assert (in_block (Ascii.eqb uplo "L") n n1 i j) as Hb
      by (unfold in_block; destruct (Ascii.eqb uplo "L"); lia).
    repeat split; try assumption.
    + intros H. apply HTL in H. lia.
    + intros H. apply HBR in H. lia.
    + apply block_touches. exists i, j. now split.
  - right; left.
    assert (in_block (Ascii.eqb uplo "L") n n1 i j) as Hb
      by (unfold in_block; destruct (Ascii.eqb uplo "L"); lia).
    repeat split; try assumption.
    + intros H. apply HTL in H. lia.
    + intros H. apply HBR in H. lia.
    + apply block_touches. exists i, j. now split.
  - right; right.
    assert (tri (Ascii.eqb uplo "L") (n - n1) (i - n1) (j - n1)) as Ht
      by (unfold tri; repeat split; try lia; destruct (Ascii.eqb uplo "L"); lia).
    repeat split; try apply Ht.
    + intros H. apply HTL in H. lia.
    + exists (i - n1), (j - n1). split; [assumption | unfold a; ring].
    + destruct (touches a c); [|reflexivity]. specialize (HB eq_refl).
      unfold in_block in HB. destruct (Ascii.eqb uplo "L"); lia.
Qed.

End Split.

Lemma split_ok_le (n n' : Z) : n' <= n -> split_ok n -> split_ok n'.
Proof. intros Hn H m Hm. apply H. lia. Qed.

Lemma rec2_post (n A B C : Z) (st : state) :
  0 <= n <= ldC ->
  offsets_in_int (Ascii.eqb transA "N") (Ascii.eqb transB "N") n ldA ldB ldC = true ->
  kernel_post uplo transA transB n k alpha A ldA B ldB beta C ldC st
    (RELAPACK_dgemmt_rec2 uplo transA transB n k alpha A ldA B ldB beta C ldC st).
Proof.
  intros Hn Hint. split; [|split].
  - now apply rec2_updates.
  - now apply rec2_frame.
  - rewrite rec2_unfold by assumption. simpl calls. eexists. split; [reflexivity|]. split.
    + now apply rec2_each_once.
    + apply Forall_map. apply Forall_forall. intros i _. apply rec2_call_dense.
Qed.

Lemma rec_level_post (n A B C : Z) (st st1 st3 : state) :
  let n1 := DREC_SPLIT n in
  let c := rec_dgemm uplo transA transB n n1 k alpha A ldA B ldB beta C ldC in
  0 < n1 < n -> n <= ldC ->
  kernel_post uplo transA transB n1 k alpha A ldA B ldB beta C ldC st st1 ->
  kernel_post uplo transA transB (n - n1) k alpha
    (A_bottom transA A ldA n1) ldA (B_right transB B ldB n1) ldB beta
    (C + ldC * n1 + n1) ldC (log c (run_call c (Cmem st1)) st1) st3 ->
  kernel_post uplo transA transB n k alpha A ldA B ldB beta C ldC st st3.
Proof.
  intros n1 c Hn1 Hn (U1 & F1 & t1 & Ht1 & O1 & D1) (U2 & F2 & t2 & Ht2 & O2 & D2).
  simpl Cmem in U2, F2. simpl calls in Ht2. subst c.
  set (c := rec_dgemm uplo transA transB n n1 k alpha A ldA B ldB beta C ldC) in *.
  assert (forall m a, touches a c = false -> run_call c m a = m a) as Hc.
  { intros m a. apply (run_call_untouched alpha beta). apply rec_dgemm_dense. }
  split; [|split].
  - intros i j Ht.
    destruct (classify n n1 A B C Hn1 Hn i j Ht)
      as [(Hq & HTL & HBR & Hto) | [(Hq & HTL & HBR & Hto) | (Hq & HTL & HBR & Hto)]].
    + rewrite F2 by assumption. rewrite Hc by assumption. now apply U1.
    + rewrite F2 by assumption. unfold c at 1. rewrite rec_dgemm_hit by assumption.
      f_equal. now apply F1.
    + replace (C + i + j * ldC) with (C + ldC * n1 + n1 + (i - n1) + (j - n1) * ldC) by ring.
      rewrite U2 by assumption. rewrite gemm_entry_shift.
      replace (n1 + (i - n1)) with i by ring. replace (n1 + (j - n1)) with j by ring.
      f_equal.
      replace (C + ldC * n1 + n1 + (i - n1) + (j - n1) * ldC) with (C + i + j * ldC) by ring.
      rewrite Hc by assumption. now apply F1.
  - intros a Ha.
    rewrite F2 by (intros H; apply Ha; now apply (BR_sub n n1 C Hn1)).
    rewrite Hc.
    + apply F1. intros H. apply Ha. now apply (TL_sub n n1 C Hn1).
    + destruct (touches a c) eqn:T; [|reflexivity].
      exfalso. apply Ha. now apply (block_sub n n1 A B C Hn1) in T.
  - exists (t1 ++ [c] ++ t2). split; [|split].
    + rewrite Ht2, Ht1. now rewrite <- !app_assoc.
    + intros a. rewrite !touch_count_app.
      destruct (O1 a) as [O1y O1n]. destruct (O2 a) as [O2y O2n].
      assert (touch_count a [c] = if touches a c then 1%nat else 0%nat) as Ec
        by (unfold touch_count; simpl; now destruct (touches a c)).
      rewrite Ec. split.
      * intros [i [j [Ht Ea]]].
        destruct (classify n n1 A B C Hn1 Hn i j Ht)
          as [(Hq & HTL & HBR & Hto) | [(Hq & HTL & HBR & Hto) | (Hq & HTL & HBR & Hto)]];
          rewrite <- Ea in HTL, HBR, Hto; fold c in Hto; rewrite Hto.
        -- rewrite O1y, O2n by assumption. reflexivity.
        -- rewrite O1n, O2n by assumption. reflexivity.
        -- rewrite O1n, O2y by assumption. reflexivity.
      * intros Ha.
        rewrite O1n by (intros H; apply Ha; now apply (TL_sub n n1 C Hn1)).
        rewrite O2n by (intros H; apply Ha; now apply (BR_sub n n1 C Hn1)).
        destruct (touches a c) eqn:T; [|reflexivity].
        exfalso. apply Ha. now apply (block_sub n n1 A B C Hn1) in T.
    + apply Forall_app. split; [assumption|]. apply Forall_app. split; [|assumption].
      constructor; [apply rec_dgemm_dense | constructor].
Qed.

(** The recursive kernel returns, given fuel above [n], and establishes
    [kernel_post]. *)
Lemma rec_correct (fuel : nat) : forall (n A B C : Z) (st : state),
  0 <= n <= ldC ->
  offsets_fit fuel (Ascii.eqb transA "N") (Ascii.eqb transB "N") n ldA ldB ldC = true ->
  split_ok n ->
  (Z.to_nat n < fuel)%nat ->
  exists st',
    RELAPACK_dgemmt_rec fuel uplo transA transB n k alpha A ldA B ldB beta C ldC st
      = Some st' /\
    kernel_post uplo transA transB n k alpha A ldA B ldB beta C ldC st st'.
Proof.
  induction fuel as [|fuel IH]; intros n A B C st Hn Hint Hsplit Hfuel; [lia|].
  destruct (Z.le_gt_cases n (MAX CROSSOVER_DGEMMT 1)) as [Hsmall | Hbig].
  - rewrite rec_small by assumption. eexists. split; [reflexivity|].
    apply rec2_post; [assumption|]. now apply (offsets_fit_small fuel).
  - assert (0 < DREC_SPLIT n < n) as Hn1 by (apply Hsplit; lia).
    destruct (offsets_fit_big fuel _ _ _ _ _ _ Hbig Hint) as (Hi & Hp & Hf1 & Hf2).
    rewrite rec_split by (try assumption; lia). cbv zeta.
    destruct (IH (DREC_SPLIT n) A B C st) as (st1 & E1 & P1); try assumption; try lia.
    { apply (split_ok_le n); [lia | assumption]. }
    rewrite E1.
    match goal with |- exists st', RELAPACK_dgemmt_rec _ _ _ _ _ _ _ ?A' _ ?B' _ _ ?C' _ ?st2 = _ /\ _ =>
      destruct (IH (n - DREC_SPLIT n) A' B' C' st2) as (st3 & E3 & P3) end;
      try assumption; try lia.
    { apply (split_ok_le n); [lia | assumption]. }
    exists st3. split; [exact E3|].
    apply (rec_level_post n A B C st st1 st3); try assumption; lia.
Qed.

End Recursive.

(** ** The entry point *)

Lemma info_first_violation (uplo transA transB : ascii) (n k ldA ldB ldC : Z) :
  dgemmt_info (lsame uplo "L") (lsame uplo "U") (lsame transA "N") (lsame transA "T")
    (lsame transB "N") (lsame transB "T") n k ldA ldB ldC =
  match first_violation (constraints uplo transA transB n k ldA ldB ldC) with
  | Some idx => idx
  | None => 0
  end.
Proof.
  unfold dgemmt_info, first_violation, constraints. rewrite !MAX_max. simpl find.
  destruct (lsame uplo "L"), (lsame uplo "U"); simpl; try reflexivity;
    destruct (lsame transA "N"), (lsame transA "T"); simpl; try reflexivity;
    destruct (lsame transB "N"), (lsame transB "T"); simpl; try reflexivity;
    destruct (Z.ltb_spec n 0), (Z.leb_spec 0 n); try lia; simpl; try reflexivity;
    destruct (Z.ltb_spec k 0), (Z.leb_spec 0 k); try lia; simpl; try reflexivity.
  all: repeat match goal with
       | |- context [?a <? ?b] => destruct (Z.ltb_spec a b)
       | |- context [?a <=? ?b] => destruct (Z.leb_spec a b)
       end; simpl; try reflexivity; lia.
Qed.

Lemma first_violation_index (uplo transA transB : ascii) (n k ldA ldB ldC idx : Z) :
  first_violation (constraints uplo transA transB n k ldA ldB ldC) = Some idx ->
  In idx [1; 2; 3; 4; 5; 8; 10; 13].
Proof.
  unfold first_violation, constraints. simpl find.
  repeat match goal with
         | |- context [if negb ?b then _ else _] => destruct b; simpl negb; cbv iota
         end; simpl; intros H; inversion H; subst; simpl; tauto.
Qed.

(** The entry point, case by case. *)
Lemma dgemmt_dispatch (fuel : nat) (uplo transA transB : ascii) (n k : Z)
    (alpha : R) (A ldA B ldB : Z) (beta : R) (C ldC : Z) (st : state) :
  RELAPACK_dgemmt fuel uplo transA transB n k alpha A ldA B ldB beta C ldC st =
  if HAVE_XGEMMT then
    Some (BLAS_dgemmt uplo transA transB n k alpha A ldA B ldB beta C ldC st)
  else
    match first_violation (constraints uplo transA transB n k ldA ldB ldC) with
    | Some idx => Some (LAPACK_xerbla "DGEMMT" idx st)
    | None =>
        RELAPACK_dgemmt_rec fuel (canon_uplo uplo) (canon_trans transA)
          (canon_trans transB) n k alpha A ldA B ldB beta C ldC st
    end.
Proof.
  unfold RELAPACK_dgemmt. destruct HAVE_XGEMMT; [reflexivity|]. cbv zeta.
  rewrite info_first_violation.
  destruct (first_violation _) as [idx|] eqn:E.
  - apply first_violation_index in E.
    simpl in E. destruct E as [<- | [<- | [<- | [<- | [<- | [<- | [<- | [<- | []]]]]]]]];
      reflexivity.
  - reflexivity.
Qed.

Lemma valid_elim (uplo transA transB : ascii) (n k ldA ldB ldC : Z) :
  first_violation (constraints uplo transA transB n k ldA ldB ldC) = None ->
  0 <= n /\ 0 <= k /\ 1 <= ldA /\ 1 <= ldB /\ Z.max 1 n <= ldC.
Proof.
  unfold first_violation, constraints. simpl find.
  repeat match goal with
         | |- context [if negb ?b then _ else _] =>
             let E := fresh "E" in destruct b eqn:E; simpl negb; cbv iota
         end; simpl; intros H; try discriminate.
  repeat match goal with H : (_ <=? _) = true |- _ => apply Z.leb_le in H end.
  lia.
Qed.

Lemma canon_uplo_lower (uplo : ascii) :
  Ascii.eqb (canon_uplo uplo) "L" = lsame uplo "L".
Proof. unfold canon_uplo. now destruct (lsame uplo "L"). Qed.

Lemma canon_trans_notrans (trans : ascii) :
  Ascii.eqb (canon_trans trans) "N" = lsame trans "N".
Proof. unfold canon_trans. now destruct (lsame trans "N"). Qed.

(** On valid input, without a native primitive, the entry point returns and
    establishes [kernel_post] for the canonical selectors. *)
Lemma dgemmt_post (fuel : nat) (uplo transA transB : ascii) (n k : Z)
    (alpha : R) (A ldA B ldB : Z) (beta : R) (C ldC : Z) (st : state) :
  HAVE_XGEMMT = false ->
  first_violation (constraints uplo transA transB n k ldA ldB ldC) = None ->
  offsets_fit fuel (lsame transA "N") (lsame transB "N") n ldA ldB ldC = true ->
  split_ok n ->
  (Z.to_nat n < fuel)%nat ->
  exists st',
    RELAPACK_dgemmt fuel uplo transA transB n k alpha A ldA B ldB beta C ldC st
      = Some st' /\
    kernel_post (canon_uplo uplo) (canon_trans transA) (canon_trans transB)
      n k alpha A ldA B ldB beta C ldC st st'.
Proof.
  intros Hx Hv Hint Hs Hf. rewrite dgemmt_dispatch, Hx, Hv.
  destruct (valid_elim _ _ _ _ _ _ _ _ Hv) as (Hn & Hk & HA & HB & HC).
  apply rec_correct; try assumption; try lia.
  now rewrite !canon_trans_notrans.
Qed.

(** ** Addresses and entries *)

Lemma tri_addr_entry (lower : bool) (n C ldC i j : Z) :
  0 <= i < n -> n <= ldC ->
  tri_addr lower n C ldC (C + i + j * ldC) -> tri lower n i j.
Proof.
  intros Hi Hn [i' [j' [Ht E]]].
  assert (i = i' /\ j = j') as [-> ->]; [|assumption].
  apply (cell_unique ldC); unfold tri in Ht; lia.
Qed.

Lemma tri_addr_dec (lower : bool) (n C ldC a : Z) :
  n <= ldC -> tri_addr lower n C ldC a \/ ~ tri_addr lower n C ldC a.
Proof.
  intros Hn. destruct (Z.le_gt_cases n 0) as [Hz | Hp].
  - right. intros [i [j [Ht _]]]. unfold tri in Ht. lia.
  - pose proof (Z.div_mod (a - C) ldC ltac:(lia)) as Hdm.
    pose proof (Z.mod_pos_bound (a - C) ldC ltac:(lia)) as Hb.
    set (i := (a - C) mod ldC) in *. set (j := (a - C) / ldC) in *.
    assert (a = C + i + j * ldC) as Ea by lia.
    assert ((i < n /\ 0 <= j < n /\ (if lower then j <= i else i <= j)) \/
            ~ (i < n /\ 0 <= j < n /\ (if lower then j <= i else i <= j))) as [Hy | Hn'].
    { destruct lower; lia. }
    + left. exists i, j. split; [|assumption].
      destruct Hy as (H1 & H2 & H3). unfold tri. repeat split; try lia; assumption.
    + right. intros [i' [j' [Ht E]]].
      assert (i' = i /\ j' = j) as [-> ->].
      { apply (cell_unique ldC); unfold tri in Ht; lia. }
      apply Hn'. destruct Ht as (H1 & H2 & H3). repeat split; try lia; assumption.
Qed.




(** * The properties of the specification *)



(** C3: without a native primitive, when some constraint is violated the
    call returns, whatever the fuel, the state it was given with one more
    call: xerbla with the name DGEMMT and the parameter index of the first
    violated constraint in the order triangle, transA, transB, n, k, ldA,
    ldB, ldC, a value among 1, 2, 3, 4, 5, 8, 10, 13.  The store of C is the
    one given and no other call is recorded. *)
Theorem dgemmt_invalid_reports_first (fuel : nat) (uplo transA transB : ascii)
    (n k : Z) (alpha : R) (A ldA B ldB : Z) (beta : R) (C ldC : Z) (st : state)
    (idx : Z) :
  HAVE_XGEMMT = false ->
  first_violation (constraints uplo transA transB n k ldA ldB ldC) = Some idx ->
  RELAPACK_dgemmt fuel uplo transA transB n k alpha A ldA B ldB beta C ldC st
    = Some (mkState (Cmem st) (calls st ++ [Xerbla "DGEMMT" idx])) /\
  In idx [1; 2; 3; 4; 5; 8; 10; 13].
Proof.
  intros Hx Hv. rewrite dgemmt_dispatch, Hx, Hv. split; [reflexivity|].
  now apply first_violation_index in Hv.
Qed.




(** C9: with n = 0 and the other arguments valid, the call returns the
    state it was given: the store of C is the same and no call was made.
    So do the two kernels on n = 0, whatever their other arguments. *)
Theorem dgemmt_n_zero_noop (fuel : nat) (uplo transA transB : ascii)
    (k : Z) (alpha : R) (A ldA B ldB : Z) (beta : R) (C ldC : Z) (st : state) :
  HAVE_XGEMMT = false ->
  first_violation (constraints uplo transA transB 0 k ldA ldB ldC) = None ->
  (0 < fuel)%nat ->
  RELAPACK_dgemmt fuel uplo transA transB 0 k alpha A ldA B ldB beta C ldC st
    = Some st /\
  RELAPACK_dgemmt_rec fuel uplo transA transB 0 k alpha A ldA B ldB beta C ldC st
    = Some st /\
  RELAPACK_dgemmt_rec2 uplo transA transB 0 k alpha A ldA B ldB beta C ldC st = st.
Proof.
  intros Hx Hv Hf. rewrite dgemmt_dispatch, Hx, Hv.
  destruct fuel as [|fuel]; [lia|].
  rewrite !rec_small by (rewrite MAX_max; lia). repeat split; reflexivity.
Qed.

(** C10: without a native primitive, and with a comparator that knows the
    canonical characters, a call whose three selectors are accepted returns
    exactly what the call with the canonical uppercase selectors returns,
    whatever the other arguments are.  The canonical selectors are 'L' or
    'U' and 'N' or 'T'; on valid input the call is the recursive kernel run
    on them, and what the kernels find by comparing them with 'L' and 'N'
    is what the comparator found on the selectors given. *)
Theorem dgemmt_selectors_canonical (fuel : nat) (uplo transA transB : ascii)
    (n k : Z) (alpha : R) (A ldA B ldB : Z) (beta : R) (C ldC : Z) (st : state) :
  HAVE_XGEMMT = false ->
  lsame_canonical ->
  lsame uplo "L" || lsame uplo "U" = true ->
  lsame transA "N" || lsame transA "T" = true ->
  lsame transB "N" || lsame transB "T" = true ->
  RELAPACK_dgemmt fuel uplo transA transB n k alpha A ldA B ldB beta C ldC st =
  RELAPACK_dgemmt fuel (canon_uplo uplo) (canon_trans transA) (canon_trans transB)
    n k alpha A ldA B ldB beta C ldC st /\
  (first_violation (constraints uplo transA transB n k ldA ldB ldC) = None ->
   RELAPACK_dgemmt fuel uplo transA transB n k alpha A ldA B ldB beta C ldC st =
   RELAPACK_dgemmt_rec fuel (canon_uplo uplo) (canon_trans transA) (canon_trans transB)
     n k alpha A ldA B ldB beta C ldC st) /\
  (canon_uplo uplo = "L"%char \/ canon_uplo uplo = "U"%char) /\
  (canon_trans transA = "N"%char \/ canon_trans transA = "T"%char) /\
  (canon_trans transB = "N"%char \/ canon_trans transB = "T"%char) /\
  Ascii.eqb (canon_uplo uplo) "L" = lsame uplo "L" /\
  Ascii.eqb (canon_trans transA) "N" = lsame transA "N" /\
  Ascii.eqb (canon_trans transB) "N" = lsame transB "N".
Proof.
  intros Hx (LL & UU & UL & NN & TT & TN) Hu Ha Hb. split.
  - unfold RELAPACK_dgemmt. rewrite Hx. cbv zeta. unfold canon_uplo, canon_trans.
    destruct (lsame uplo "L") eqn:E1; destruct (lsame uplo "U") eqn:E2;
      try discriminate;
      destruct (lsame transA "N") eqn:E3; destruct (lsame transA "T") eqn:E4;
      try discriminate;
      destruct (lsame transB "N") eqn:E5; destruct (lsame transB "T") eqn:E6;
      try discriminate;
      rewrite ?LL, ?UU, ?UL, ?NN, ?TT, ?TN;
      destruct (lsame "L" "U"); destruct (lsame "N" "T"); reflexivity.
  - split.
    { intros Hv. now rewrite dgemmt_dispatch, Hx, Hv. }
    unfold canon_uplo, canon_trans.
    destruct (lsame uplo "L"), (lsame transA "N"), (lsame transB "N");
      repeat split; auto.
Qed.

(** C7 (as amended): the fast-path flag is looked at first.  When it is
    set, every call, valid or not, goes unchecked and with the selectors
    as given to the native primitive, and nothing else is done.  When it is
    not set, the arguments are checked first: a violated constraint is
    reported through xerbla and nothing is written to C, and only on valid
    input the selectors are put in canonical form and the recursive kernel
    is run. *)
Theorem dgemmt_fast_path_then_checks (fuel : nat) (uplo transA transB : ascii)
    (n k : Z) (alpha : R) (A ldA B ldB : Z) (beta : R) (C ldC : Z) (st : state) :
  RELAPACK_dgemmt fuel uplo transA transB n k alpha A ldA B ldB beta C ldC st =
  if HAVE_XGEMMT then
    Some (mkState
            (native_dgemmt uplo transA transB n k alpha A ldA B ldB beta C ldC (Cmem st))
            (calls st ++ [Dgemmt uplo transA transB n k alpha A ldA B ldB beta C ldC]))
  else
    match first_violation (constraints uplo transA transB n k ldA ldB ldC) with
    | Some idx => Some (mkState (Cmem st) (calls st ++ [Xerbla "DGEMMT" idx]))
    | None =>
        RELAPACK_dgemmt_rec fuel (canon_uplo uplo) (canon_trans transA)
          (canon_trans transB) n k alpha A ldA B ldB beta C ldC st
    end.
Proof. apply dgemmt_dispatch. Qed.

(** * Further properties of the kernels *)

(** ** The calls made: how many, how much they write, with what arguments *)

Lemma count_calls_app (p : call -> bool) (t1 t2 : list call) :
  count_calls p (t1 ++ t2) = (count_calls p t1 + count_calls p t2)%nat.
Proof. unfold count_calls. now rewrite filter_app, length_app. Qed.

Lemma count_calls_map_all (p : call -> bool) (ev : Z -> call) (l : list Z) :
  (forall i, In i l -> p (ev i) = true) ->
  count_calls p (map ev l) = List.length l.
Proof.
  unfold count_calls. induction l as [|x l IH]; intros H; simpl; [reflexivity|].
  rewrite (H x) by now left. simpl. f_equal. apply IH. intros i Hi. apply H. now right.
Qed.

Lemma count_calls_map_none (p : call -> bool) (ev : Z -> call) (l : list Z) :
  (forall i, In i l -> p (ev i) = false) ->
  count_calls p (map ev l) = 0%nat.
Proof.
  unfold count_calls. induction l as [|x l IH]; intros H; simpl; [reflexivity|].
  rewrite (H x) by now left. apply IH. intros i Hi. apply H. now right.
Qed.

Lemma total_written_app (t1 t2 : list call) :
  total_written (t1 ++ t2) = total_written t1 + total_written t2.
Proof.
  unfold total_written. induction t1 as [|c t1 IH]; simpl; [reflexivity|].
  rewrite IH. ring.
Qed.

Lemma dims_ok_le (transA transB : ascii) (n n' k ldA ldB ldC : Z) :
  0 <= n' <= n -> dims_ok transA transB n k ldA ldB ldC ->
  dims_ok transA transB n' k ldA ldB ldC.
Proof.
  unfold dims_ok. intros Hn (H1 & H2 & H3 & H4 & H5).
  destruct (Ascii.eqb transA "N"), (Ascii.eqb transB "N"); repeat split; lia.
Qed.

Section CallsMade.
Variables uplo transA transB : ascii.
Variables k : Z.
Variables alpha beta : R.
Variables ldA ldB ldC : Z.

Lemma rec2_call_kind (n A B C i : Z) :
  is_dgemv (rec2_call uplo transA transB n k alpha A ldA B ldB beta C ldC i) = true /\
  is_dgemm (rec2_call uplo transA transB n k alpha A ldA B ldB beta C ldC i) = false.
Proof.
  unfold rec2_call. cbv zeta.
  destruct (Ascii.eqb uplo "L"), (Ascii.eqb transA "N"); split; reflexivity.
Qed.

Lemma rec2_call_written (n A B C i : Z) :
  0 <= i < n ->
  entries_written (rec2_call uplo transA transB n k alpha A ldA B ldB beta C ldC i) =
  if Ascii.eqb uplo "L" then n - i else i + 1.
Proof.
  intros Hi. unfold rec2_call. cbv zeta.
  destruct (Ascii.eqb uplo "L"), (Ascii.eqb transA "N") eqn:EA;
    simpl entries_written; rewrite EA; lia.
Qed.

Lemma rec2_call_conforms (n A B C i : Z) :
  dims_ok transA transB n k ldA ldB ldC -> 0 <= i < n ->
  call_conforms (rec2_call uplo transA transB n k alpha A ldA B ldB beta C ldC i) = true.
Proof.
  unfold dims_ok. intros (H1 & H2 & H3 & H4 & H5) Hi. unfold rec2_call. cbv zeta.
  destruct (Ascii.eqb uplo "L"), (Ascii.eqb transA "N") eqn:EA,
           (Ascii.eqb transB "N") eqn:EB;
    simpl call_conforms; rewrite ?EA;
    repeat (apply andb_true_intro; split);
    first [ reflexivity | apply Z.leb_le; lia | apply Z.ltb_lt; lia
          | apply negb_true_iff, Z.eqb_neq; lia ].
Qed.

Lemma rec2_total_written (n A B C : Z) (cnt : nat) : forall i0,
  0 <= i0 -> i0 + Z.of_nat cnt <= n ->
  2 * total_written
        (map (rec2_call uplo transA transB n k alpha A ldA B ldB beta C ldC)
             (zrange i0 cnt)) =
  Z.of_nat cnt * (if Ascii.eqb uplo "L"
                  then 2 * n - 2 * i0 - Z.of_nat cnt + 1
                  else 2 * i0 + Z.of_nat cnt + 1).
Proof.
  induction cnt as [|c IH]; intros i0 Hi0 Hc.
  - simpl. reflexivity.
  - simpl zrange. simpl map. unfold total_written. simpl fold_right.
    fold (total_written
            (map (rec2_call uplo transA transB n k alpha A ldA B ldB beta C ldC)
                 (zrange (i0 + 1) c))).
    rewrite rec2_call_written by lia.
    specialize (IH (i0 + 1) ltac:(lia) ltac:(lia)).
    rewrite Nat2Z.inj_succ. destruct (Ascii.eqb uplo "L"); nia.
Qed.

Lemma rec2_calls_facts (n A B C : Z) :
  dims_ok transA transB n k ldA ldB ldC ->
  calls_facts n (map (rec2_call uplo transA transB n k alpha A ldA B ldB beta C ldC)
                     (zrange 0 (Z.to_nat n))).
Proof.
  intros Hd. assert (0 <= n) as Hn by apply Hd.
  assert (count_calls is_dgemm
            (map (rec2_call uplo transA transB n k alpha A ldA B ldB beta C ldC)
                 (zrange 0 (Z.to_nat n))) = 0%nat) as Hm.
  { apply count_calls_map_none. intros i _. apply rec2_call_kind. }
  unfold calls_facts. rewrite Hm. repeat split.
  - rewrite count_calls_map_all by (intros i _; apply rec2_call_kind).
    rewrite zrange_length. lia.
  - lia.
  - rewrite rec2_total_written by lia. rewrite Z2Nat.id by lia.
    destruct (Ascii.eqb uplo "L"); ring.
  - apply forallb_forall. intros c Hc. apply in_map_iff in Hc.
    destruct Hc as [i [<- Hi]]. apply zrange_In in Hi.
    apply rec2_call_conforms; [assumption | lia].
Qed.

Lemma rec_dgemm_facts (n n1 A B C : Z) :
  0 < n1 < n -> dims_ok transA transB n k ldA ldB ldC ->
  let c := rec_dgemm uplo transA transB n n1 k alpha A ldA B ldB beta C ldC in
  is_dgemm c = true /\ is_dgemv c = false /\
  entries_written c = n1 * (n - n1) /\ call_conforms c = true.
Proof.
  unfold dims_ok. intros Hn1 (H1 & H2 & H3 & H4 & H5). unfold rec_dgemm. cbv zeta.
  destruct (Ascii.eqb uplo "L"); simpl; repeat split; try nia;
    destruct (Ascii.eqb transA "N"), (Ascii.eqb transB "N");
    repeat (apply andb_true_intro; split);
    first [ reflexivity | apply Z.leb_le; lia | apply Z.ltb_lt; lia ].
Qed.

Lemma rec_calls_facts (fuel : nat) : forall (n A B C : Z) (st : state),
  dims_ok transA transB n k ldA ldB ldC ->
  offsets_fit fuel (Ascii.eqb transA "N") (Ascii.eqb transB "N") n ldA ldB ldC = true ->
  split_ok n ->
  (Z.to_nat n < fuel)%nat ->
  exists st' t,
    RELAPACK_dgemmt_rec fuel uplo transA transB n k alpha A ldA B ldB beta C ldC st
      = Some st' /\
    calls st' = calls st ++ t /\
    calls_facts n t.
Proof.
  induction fuel as [|fuel IH]; intros n A B C st Hd Hint Hsplit Hfuel; [lia|].
  assert (0 <= n /\ 0 <= ldA /\ 0 <= ldB /\ n <= ldC) as (Hn & HA & HB & HC)
    by (unfold dims_ok in Hd; lia).
  destruct (Z.le_gt_cases n (MAX CROSSOVER_DGEMMT 1)) as [Hsmall | Hbig].
  - rewrite rec_small by assumption.
    rewrite rec2_unfold
      by (try assumption; try lia; now apply (offsets_fit_small fuel)).
    eexists. eexists. split; [reflexivity|]. split; [reflexivity|].
    now apply rec2_calls_facts.
  - assert (0 < DREC_SPLIT n < n) as Hn1 by (apply Hsplit; lia).
    destruct (offsets_fit_big fuel _ _ _ _ _ _ Hbig Hint) as (Hi & Hp & Hf1 & Hf2).
    rewrite rec_split by (try assumption; lia). cbv zeta.
    destruct (IH (DREC_SPLIT n) A B C st) as (st1 & t1 & E1 & Ht1 & F1);
      try assumption; try lia.
    { apply (dims_ok_le _ _ n); [lia | assumption]. }
    { apply (split_ok_le n); [lia | assumption]. }
    rewrite E1.
    match goal with |- exists st' t, RELAPACK_dgemmt_rec _ _ _ _ _ _ _ ?A' _ ?B' _ _ ?C' _ ?st2 = _ /\ _ =>
      destruct (IH (n - DREC_SPLIT n) A' B' C' st2) as (st3 & t2 & E3 & Ht2 & F2) end;
      try assumption; try lia.
    { apply (dims_ok_le _ _ n); [lia | assumption]. }
    { apply (split_ok_le n); [lia | assumption]. }
    simpl calls in Ht2.
    destruct (rec_dgemm_facts n (DREC_SPLIT n) A B C Hn1 Hd) as (D1 & D2 & D3 & D4).
    set (c := rec_dgemm uplo transA transB n (DREC_SPLIT n) k alpha A ldA B ldB
                beta C ldC) in *.
    exists st3, (t1 ++ [c] ++ t2). split; [exact E3|]. split.
    { rewrite Ht2, Ht1. now rewrite <- !app_assoc. }
    destruct F1 as (V1 & M1 & _ & W1 & C1). destruct F2 as (V2 & M2 & _ & W2 & C2).
    assert (count_calls is_dgemv [c] = 0%nat) as Ev
      by (unfold count_calls; simpl; now rewrite D2).
    assert (count_calls is_dgemm [c] = 1%nat) as Em
      by (unfold count_calls; simpl; now rewrite D1).
    assert (total_written [c] = DREC_SPLIT n * (n - DREC_SPLIT n)) as Ew
      by (unfold total_written; simpl; rewrite D3; ring).
    unfold calls_facts.
    rewrite !count_calls_app, !total_written_app, !forallb_app, Ev, Em, Ew, C1, C2.
    simpl forallb. rewrite D4. repeat split; try reflexivity; try lia; nia.
Qed.

End CallsMade.

Lemma valid_dims (uplo transA transB : ascii) (n k ldA ldB ldC : Z) :
  first_violation (constraints uplo transA transB n k ldA ldB ldC) = None ->
  dims_ok (canon_trans transA) (canon_trans transB) n k ldA ldB ldC.
Proof.
  unfold first_violation, constraints, dims_ok. rewrite !canon_trans_notrans.
  simpl find.
  repeat match goal with
         | |- context [if negb ?b then _ else _] =>
             let E := fresh "E" in destruct b eqn:E; simpl negb; cbv iota
         end; simpl; intros H; try discriminate.
  repeat match goal with H : (_ <=? _) = true |- _ => apply Z.leb_le in H end.
  repeat split; assumption.
Qed.


(** X2: on valid input for which the offsets the kernels compute fit in
    int, every call the routine makes is a dense primitive
    call with conformant arguments: positive dimensions of the block or
    vector written, k not negative, each leading dimension at least
    max(1, rows of the operand as stored), increments not zero. *)
Theorem dgemmt_calls_conform (fuel : nat) (uplo transA transB : ascii)
    (n k : Z) (alpha : R) (A ldA B ldB : Z) (beta : R) (C ldC : Z) (st : state) :
  HAVE_XGEMMT = false ->
  first_violation (constraints uplo transA transB n k ldA ldB ldC) = None ->
  offsets_fit fuel (lsame transA "N") (lsame transB "N") n ldA ldB ldC = true ->
  split_ok n ->
  (Z.to_nat n < fuel)%nat ->
  exists st' t,
    RELAPACK_dgemmt fuel uplo transA transB n k alpha A ldA B ldB beta C ldC st
      = Some st' /\
    calls st' = calls st ++ t /\
    forall c, In c t -> call_conforms c = true.
Proof.
  intros Hx Hv Hint Hs Hf. rewrite dgemmt_dispatch, Hx, Hv.
  destruct (rec_calls_facts (canon_uplo uplo) (canon_trans transA) (canon_trans transB)
              k alpha beta ldA ldB ldC fuel n A B C st)
    as (st' & t & E & Ht & _ & _ & _ & _ & F5); try assumption.
  - now apply valid_dims in Hv.
  - now rewrite !canon_trans_notrans.
  - exists st', t. split; [assumption|]. split; [assumption|].
    now apply forallb_forall.
Qed.

(** X5: with offsets that fit in int, a valid call on the lower triangle
    followed by the same call on the upper triangle leaves every off-diagonal entry of the n x n matrix
    with the product entry computed once from its initial value, every
    diagonal entry with the update applied twice, and every address that
    holds no entry of the matrix unchanged. *)
Theorem dgemmt_lower_then_upper (fuel : nat) (lo up transA transB : ascii)
    (n k : Z) (alpha : R) (A ldA B ldB : Z) (beta : R) (C ldC : Z) (st : state) :
  HAVE_XGEMMT = false ->
  lsame lo "L" = true -> lsame up "L" = false ->
  first_violation (constraints lo transA transB n k ldA ldB ldC) = None ->
  first_violation (constraints up transA transB n k ldA ldB ldC) = None ->
  offsets_fit fuel (lsame transA "N") (lsame transB "N") n ldA ldB ldC = true ->
  split_ok n ->
  (Z.to_nat n < fuel)%nat ->
  exists st1 st2,
    RELAPACK_dgemmt fuel lo transA transB n k alpha A ldA B ldB beta C ldC st
      = Some st1 /\
    RELAPACK_dgemmt fuel up transA transB n k alpha A ldA B ldB beta C ldC st1
      = Some st2 /\
    (forall i j, 0 <= i < n -> 0 <= j < n ->
       let E := gemm_entry (canon_trans transA) (canon_trans transB) k alpha
                  A ldA B ldB beta i j in
       Cmem st2 (C + i + j * ldC) =
       if i =? j then E (E (Cmem st (C + i + j * ldC)))
       else E (Cmem st (C + i + j * ldC))) /\
    (forall a, ~ tri_addr true n C ldC a -> ~ tri_addr false n C ldC a ->
       Cmem st2 a = Cmem st a).
Proof.
  intros Hx Hlo Hup Hv1 Hv2 Hint Hs Hf.
  destruct (dgemmt_post fuel lo transA transB n k alpha A ldA B ldB beta C ldC st
              Hx Hv1 Hint Hs Hf) as (st1 & E1 & U1 & F1 & _).
  destruct (dgemmt_post fuel up transA transB n k alpha A ldA B ldB beta C ldC st1
              Hx Hv2 Hint Hs Hf) as (st2 & E2 & U2 & F2 & _).
  destruct (valid_elim _ _ _ _ _ _ _ _ Hv1) as (Hn & _ & _ & _ & HC).
  rewrite canon_uplo_lower, Hlo in U1, F1. rewrite canon_uplo_lower, Hup in U2, F2.
  exists st1, st2. split; [assumption|]. split; [assumption|]. split.
  - intros i j Hi Hj E.
    assert (forall lower, ~ tri lower n i j -> ~ tri_addr lower n C ldC (C + i + j * ldC))
      as Hout.
    { intros lower Hnot H. apply Hnot. apply tri_addr_entry in H; [assumption | lia | lia]. }
    destruct (Z.eqb_spec i j) as [-> | Hne].
    + rewrite U2 by (unfold tri; lia). unfold E. f_equal.
      apply U1. unfold tri. lia.
    + destruct (Z.lt_ge_cases i j) as [Hlt | Hge].
      * rewrite U2 by (unfold tri; lia). unfold E. f_equal.
        apply F1. apply Hout. unfold tri. lia.
      * rewrite F2 by (apply Hout; unfold tri; lia).
        apply U1. unfold tri. lia.
  - intros a Ha1 Ha2. rewrite F2 by assumption. now apply F1.
Qed.

(** ** The three steps of one level, in any order *)

Section StepOrder.
Variables uplo transA transB : ascii.
Variable k : Z.
Variables alpha beta : R.
Variables ldA ldB ldC : Z.
Variables n A B C : Z.
Variable fuel : nat.
Hypothesis n_big : MAX CROSSOVER_DGEMMT 1 < n.
Hypothesis n_ldC : n <= ldC.
Hypothesis ldA_pos : 0 <= ldA.
Hypothesis ldB_pos : 0 <= ldB.
Hypothesis in_int :
  offsets_fit (S fuel) (Ascii.eqb transA "N") (Ascii.eqb transB "N") n ldA ldB ldC
    = true.
Hypothesis split_n : split_ok n.
Hypothesis fuel_n : (Z.to_nat n <= fuel)%nat.

Lemma split_progress : 0 < DREC_SPLIT n < n.
Proof. apply split_n. lia. Qed.

Lemma entry_at_cell (i j : Z) (c : R) :
  0 <= i < ldC ->
  entry_at transA transB k alpha A ldA B ldB beta C ldC (C + i + j * ldC) c =
  gemm_entry transA transB k alpha A ldA B ldB beta i j c.
Proof.
  clear. intros Hi. unfold entry_at.
  replace (C + i + j * ldC - C) with (i + j * ldC) by ring.
  rewrite Z.mod_add, Z.div_add by lia.
  rewrite Z.mod_small, Z.div_small by lia. reflexivity.
Qed.

Lemma region_in_triangle (s : step) (a : Z) :
  step_region uplo transA transB n k alpha A ldA B ldB beta C ldC s a ->
  tri_addr (Ascii.eqb uplo "L") n C ldC a.
Proof.
  pose proof split_progress as Hn1.
  destruct s; unfold step_region; cbv zeta; intros H.
  - now apply (TL_sub uplo ldC n (DREC_SPLIT n) C Hn1).
  - now apply (block_sub uplo transA transB k alpha beta ldA ldB ldC n (DREC_SPLIT n)
                 A B C Hn1) in H.
  - now apply (BR_sub uplo ldC n (DREC_SPLIT n) C Hn1).
Qed.

Lemma region_of_entry (i j : Z) :
  tri (Ascii.eqb uplo "L") n i j ->
  exists s, step_region uplo transA transB n k alpha A ldA B ldB beta C ldC s
              (C + i + j * ldC) /\
    forall s', step_region uplo transA transB n k alpha A ldA B ldB beta C ldC s'
                 (C + i + j * ldC) -> s' = s.
Proof.
  pose proof split_progress as Hn1. intros Ht.
  destruct (classify uplo transA transB k alpha beta ldA ldB ldC n (DREC_SPLIT n)
              A B C Hn1 n_ldC i j Ht)
    as [(Hq & HTL & HBR & Hto) | [(Hq & HTL & HBR & Hto) | (Hq & HTL & HBR & Hto)]].
  - exists TopLeft. split; [exact HTL|].
    intros [] H; unfold step_region in H; cbv zeta in H;
      [reflexivity | congruence | contradiction].
  - exists Dense. split; [exact Hto|].
    intros [] H; unfold step_region in H; cbv zeta in H;
      [contradiction | reflexivity | contradiction].
  - exists BottomRight. split; [exact HBR|].
    intros [] H; unfold step_region in H; cbv zeta in H;
      [contradiction | congruence | reflexivity].
Qed.

Lemma region_exclusive (s s' : step) (a : Z) :
  step_region uplo transA transB n k alpha A ldA B ldB beta C ldC s a ->
  step_region uplo transA transB n k alpha A ldA B ldB beta C ldC s' a ->
  s = s'.
Proof.
  intros H H'. destruct (region_in_triangle s a H) as [i [j [Ht ->]]].
  destruct (region_of_entry i j Ht) as [s0 [_ Hu]].
  rewrite (Hu s H), (Hu s' H'). reflexivity.
Qed.

(** Each step returns, from any state, and rewrites its own region only. *)
Lemma step_acts (s : step) (st : state) :
  exists st',
    run_step fuel uplo transA transB n k alpha A ldA B ldB beta C ldC s st = Some st' /\
    acts_on (step_region uplo transA transB n k alpha A ldA B ldB beta C ldC s)
            (entry_at transA transB k alpha A ldA B ldB beta C ldC)
            (Cmem st) (Cmem st').
Proof.
  pose proof split_progress as Hn1.
  destruct (offsets_fit_big fuel _ _ _ _ _ _ n_big in_int) as (Hi & Hp & Hf1 & Hf2).
  destruct s; unfold run_step, step_region; cbv zeta.
  - destruct (rec_correct uplo transA transB k alpha beta ldA ldB ldC ldA_pos ldB_pos
                fuel (DREC_SPLIT n) A B C st) as (st' & E & U & F & _);
      try assumption; try lia.
    { apply (split_ok_le n); [lia | assumption]. }
    exists st'. split; [exact E|]. split; [|exact F].
    intros a [i [j [Ht ->]]]. rewrite (U i j Ht).
    rewrite entry_at_cell by (unfold tri in Ht; lia). reflexivity.
  - eexists. split; [reflexivity|]. simpl Cmem. split.
    + intros a Ha.
      apply (block_touches uplo transA transB k alpha beta ldA ldB ldC) in Ha.
      destruct Ha as [i [j [Hb ->]]].
      rewrite rec_dgemm_hit by assumption.
      rewrite entry_at_cell; [reflexivity|].
      unfold in_block in Hb. destruct (Ascii.eqb uplo "L"); lia.
    + intros a Ha. apply (run_call_untouched alpha beta); [apply rec_dgemm_dense|].
      destruct (touches a _); [contradiction | reflexivity].
  - destruct (rec_correct uplo transA transB k alpha beta ldA ldB ldC ldA_pos ldB_pos
                fuel (n - DREC_SPLIT n) (A_bottom transA A ldA (DREC_SPLIT n))
                (B_right transB B ldB (DREC_SPLIT n))
                (C + ldC * DREC_SPLIT n + DREC_SPLIT n) st)
      as (st' & E & U & F & _); try assumption; try lia.
    { apply (split_ok_le n); [lia | assumption]. }
    exists st'. split; [exact E|]. split; [|exact F].
    intros a [i [j [Ht ->]]]. rewrite (U i j Ht). rewrite gemm_entry_shift.
    replace (C + ldC * DREC_SPLIT n + DREC_SPLIT n + i + j * ldC)
      with (C + (DREC_SPLIT n + i) + (DREC_SPLIT n + j) * ldC) by ring.
    rewrite entry_at_cell by (unfold tri in Ht; lia). reflexivity.
Qed.

Lemma run_steps_acts (l : list step) : NoDup l -> forall st,
  exists st',
    run_steps fuel uplo transA transB n k alpha A ldA B ldB beta C ldC l st = Some st' /\
    acts_on (fun a => exists s, In s l /\
               step_region uplo transA transB n k alpha A ldA B ldB beta C ldC s a)
            (entry_at transA transB k alpha A ldA B ldB beta C ldC)
            (Cmem st) (Cmem st').
Proof.
  induction l as [|s l IH]; intros Hnd st.
  - exists st. split; [reflexivity|]. split; [|reflexivity].
    intros a [s [[] _]].
  - inversion Hnd as [|s0 l0 Hnotin Hnd']; subst.
    destruct (step_acts s st) as (st1 & E1 & H1 & F1).
    destruct (IH Hnd' st1) as (st' & E' & H' & F').
    exists st'. split; [simpl; rewrite E1; exact E'|]. split.
    + intros a [s' [[<- | Hin] Hr]].
      * rewrite F', (H1 a Hr); [reflexivity|].
        intros [s'' [Hin'' Hr'']].
        apply Hnotin. now rewrite (region_exclusive s s'' a Hr Hr'').
      * rewrite H' by (exists s'; now split). f_equal. apply F1.
        intros Hr1. apply Hnotin. now rewrite (region_exclusive s s' a Hr1 Hr).
    + intros a Hno. rewrite F'.
      * apply F1. intros Hr. apply Hno. exists s. split; [now left | assumption].
      * intros [s' [Hin Hr]]. apply Hno. exists s'. split; [now right | assumption].
Qed.

Lemma all_steps_store (l : list step) (st st3 : state) :
  NoDup l -> (forall s, In s l) ->
  kernel_post uplo transA transB n k alpha A ldA B ldB beta C ldC st st3 ->
  exists st',
    run_steps fuel uplo transA transB n k alpha A ldA B ldB beta C ldC l st = Some st' /\
    forall a, Cmem st' a = Cmem st3 a.
Proof.
  intros Hnd Hall (U & F & _).
  destruct (run_steps_acts l Hnd st) as (st' & E & H' & F').
  exists st'. split; [exact E|]. intros a.
  destruct (tri_addr_dec (Ascii.eqb uplo "L") n C ldC a n_ldC) as [[i [j [Ht ->]]] | Hout].
  - destruct (region_of_entry i j Ht) as [s [Hr _]].
    rewrite H' by (exists s; split; [apply Hall | exact Hr]).
    rewrite entry_at_cell by (unfold tri in Ht; lia).
    symmetry. now apply U.
  - rewrite F'; [symmetry; now apply F|].
    intros [s [_ Hr]]. apply Hout. now apply (region_in_triangle s).
Qed.

End StepOrder.

Lemma step_orders_complete (order : list step) :
  In order step_orders -> NoDup order /\ forall s, In s order.
Proof.
  clear. intros Hin. simpl in Hin.
  destruct Hin as [<- | [<- | [<- | [<- | [<- | [<- | []]]]]]]; split;
    try (intros []; simpl; auto 6);
    repeat constructor; simpl; intros H;
    repeat (destruct H as [H | H]; [discriminate|]); exact H.
Qed.

(** X4: above the threshold and with offsets that fit in int, the recursive
    kernel is its three steps run in
    the order top-left, dense call, bottom-right; run in any of the six
    orders, from the same state, the three steps return and leave the same
    store of C. *)
Theorem rec_steps_any_order (fuel : nat) (uplo transA transB : ascii)
    (n k : Z) (alpha : R) (A ldA B ldB : Z) (beta : R) (C ldC : Z) (st : state) :
  MAX CROSSOVER_DGEMMT 1 < n -> n <= ldC -> 0 <= ldA -> 0 <= ldB ->
  offsets_fit (S fuel) (Ascii.eqb transA "N") (Ascii.eqb transB "N") n ldA ldB ldC
    = true ->
  split_ok n ->
  (Z.to_nat n <= fuel)%nat ->
  exists st3,
    RELAPACK_dgemmt_rec (S fuel) uplo transA transB n k alpha A ldA B ldB beta C ldC st
      = Some st3 /\
    run_steps fuel uplo transA transB n k alpha A ldA B ldB beta C ldC
      [TopLeft; Dense; BottomRight] st = Some st3 /\
    forall order, In order step_orders ->
      exists st',
        run_steps fuel uplo transA transB n k alpha A ldA B ldB beta C ldC order st
          = Some st' /\
        forall a, Cmem st' a = Cmem st3 a.
Proof.
  intros Hbig Hn HA HB Hint Hs Hf.
  assert (0 < DREC_SPLIT n < n) as Hn1 by (apply Hs; lia).
  destruct (rec_correct uplo transA transB k alpha beta ldA ldB ldC HA HB
              (S fuel) n A B C st) as (st3 & E3 & P3); try assumption; try lia.
  destruct (offsets_fit_big fuel _ _ _ _ _ _ Hbig Hint) as (Hi & Hp & _ & _).
  exists st3. split; [exact E3|]. split.
  - rewrite rec_split in E3 by (try assumption; lia). cbv zeta in E3.
    simpl run_steps. unfold run_step. cbv zeta.
    destruct (RELAPACK_dgemmt_rec fuel uplo transA transB (DREC_SPLIT n) k alpha
                A ldA B ldB beta C ldC st) as [st1|]; [|discriminate].
    rewrite E3. reflexivity.
  - intros order Hin.
    apply (all_steps_store uplo transA transB k alpha beta ldA ldB ldC n A B C fuel
             Hbig Hn HA HB Hint Hs Hf order st st3); [| |exact P3].
    + now apply step_orders_complete.
    + now apply step_orders_complete.
Qed.

End Dgemmt.

(** * Thresholds, and the routines at work *)

Lemma half_split_ok (crossover n : Z) : split_ok crossover half_split n.
Proof.
  intros m Hm. rewrite MAX_max in Hm. unfold half_split.
  split; [apply Z.div_str_pos | apply Z.div_lt]; lia.
Qed.

Lemma lsame_ascii_canonical : lsame_canonical lsame_ascii.
Proof. unfold lsame_canonical. repeat split; reflexivity. Qed.


(** X3: on valid input for which the offsets the kernels compute fit in
    int, the store of C the call leaves depends on the
    stores of A and B only through the n x k entries of op(A) and the k x n
    entries of op(B): two runs whose operand stores agree there leave the
    same store of C, whatever the stores hold elsewhere. *)
Theorem dgemmt_reads_within_extents (R : Type) (rzero : R)
    (radd rmul : R -> R -> R) (Amem Bmem Amem' Bmem' : store R)
    (HAVE_XGEMMT : bool) (CROSSOVER_DGEMMT : Z) (DREC_SPLIT : Z -> Z)
    (lsame : ascii -> ascii -> bool)
    (native_dgemmt : ascii -> ascii -> ascii -> Z -> Z -> R -> Z -> Z -> Z -> Z ->
                     R -> Z -> Z -> store R -> store R)
    (fuel : nat) (uplo transA transB : ascii) (n k : Z) (alpha : R)
    (A ldA B ldB : Z) (beta : R) (C ldC : Z) (st : state R) :
  HAVE_XGEMMT = false ->
  first_violation (constraints lsame uplo transA transB n k ldA ldB ldC) = None ->
  offsets_fit CROSSOVER_DGEMMT DREC_SPLIT fuel (lsame transA "N"%char)
    (lsame transB "N"%char) n ldA ldB ldC = true ->
  split_ok CROSSOVER_DGEMMT DREC_SPLIT n ->
  (Z.to_nat n < fuel)%nat ->
  (forall i l, 0 <= i < n -> 0 <= l < k ->
     op_entry R (canon_trans lsame transA) Amem A ldA i l =
     op_entry R (canon_trans lsame transA) Amem' A ldA i l) ->
  (forall l j, 0 <= l < k -> 0 <= j < n ->
     op_entry R (canon_trans lsame transB) Bmem B ldB l j =
     op_entry R (canon_trans lsame transB) Bmem' B ldB l j) ->
  exists st1 st2,
    RELAPACK_dgemmt R rzero radd rmul Amem Bmem HAVE_XGEMMT CROSSOVER_DGEMMT DREC_SPLIT
      lsame native_dgemmt fuel uplo transA transB n k alpha A ldA B ldB beta C ldC st
      = Some st1 /\
    RELAPACK_dgemmt R rzero radd rmul Amem' Bmem' HAVE_XGEMMT CROSSOVER_DGEMMT DREC_SPLIT
      lsame native_dgemmt fuel uplo transA transB n k alpha A ldA B ldB beta C ldC st
      = Some st2 /\
    forall a, Cmem R st1 a = Cmem R st2 a.
Proof.
  intros Hx Hv Hint Hs Hf HA HB.
  destruct (dgemmt_post R rzero radd rmul Amem Bmem HAVE_XGEMMT CROSSOVER_DGEMMT
              DREC_SPLIT lsame native_dgemmt fuel uplo transA transB n k alpha
              A ldA B ldB beta C ldC st Hx Hv Hint Hs Hf) as (st1 & E1 & U1 & F1 & _).
  destruct (dgemmt_post R rzero radd rmul Amem' Bmem' HAVE_XGEMMT CROSSOVER_DGEMMT
              DREC_SPLIT lsame native_dgemmt fuel uplo transA transB n k alpha
              A ldA B ldB beta C ldC st Hx Hv Hint Hs Hf) as (st2 & E2 & U2 & F2 & _).
  destruct (valid_elim _ _ _ _ _ _ _ _ _ Hv) as (Hn & _ & _ & _ & HC).
  exists st1, st2. split; [assumption|]. split; [assumption|]. intros a.
  destruct (tri_addr_dec (Ascii.eqb (canon_uplo lsame uplo) "L") n C ldC a ltac:(lia))
    as [[i [j [Ht ->]]] | Hout].
  - rewrite (U1 i j Ht), (U2 i j Ht). unfold gemm_entry. do 2 f_equal.
    apply dot_ext. intros l Hl. unfold tri in Ht. split; [apply HA | apply HB]; lia.
  - now rewrite F1, F2.
Qed.

Lemma rec_threshold_clamped (R : Type) (rzero : R) (radd rmul : R -> R -> R)
    (Amem Bmem : store R) (crossover : Z) (DREC_SPLIT : Z -> Z)
    (uplo transA transB : ascii) (k : Z) (alpha : R) (ldA ldB : Z) (beta : R)
    (ldC : Z) (fuel : nat) :
  crossover <= 1 ->
  forall (n A B C : Z) (st : state R),
  RELAPACK_dgemmt_rec R rzero radd rmul Amem Bmem crossover DREC_SPLIT fuel
    uplo transA transB n k alpha A ldA B ldB beta C ldC st =
  RELAPACK_dgemmt_rec R rzero radd rmul Amem Bmem 1 DREC_SPLIT fuel
    uplo transA transB n k alpha A ldA B ldB beta C ldC st.
Proof.
  intros Hc. induction fuel as [|fuel IH]; intros n A B C st; [reflexivity|].
  simpl RELAPACK_dgemmt_rec.
  replace (MAX crossover 1) with (MAX 1 1) by (rewrite !MAX_max; lia).
  destruct (n <=? MAX 1 1); [reflexivity|].
  rewrite IH.
  destruct (RELAPACK_dgemmt_rec R rzero radd rmul Amem Bmem 1 DREC_SPLIT fuel
              uplo transA transB (DREC_SPLIT n) k alpha A ldA B ldB beta C ldC st);
    [apply IH | reflexivity].
Qed.

(** X7: a threshold of 1 or less (0, or negative) is a threshold of 1: the
    recursive kernel and the entry point return exactly the same state,
    calls included, as with the threshold at 1, on every input and for
    every fuel. *)
Theorem dgemmt_threshold_clamped (R : Type) (rzero : R)
    (radd rmul : R -> R -> R) (Amem Bmem : store R)
    (HAVE_XGEMMT : bool) (crossover : Z) (DREC_SPLIT : Z -> Z)
    (lsame : ascii -> ascii -> bool)
    (native_dgemmt : ascii -> ascii -> ascii -> Z -> Z -> R -> Z -> Z -> Z -> Z ->
                     R -> Z -> Z -> store R -> store R)
    (fuel : nat) (uplo transA transB : ascii) (n k : Z) (alpha : R)
    (A ldA B ldB : Z) (beta : R) (C ldC : Z) (st : state R) :
  crossover <= 1 ->
  RELAPACK_dgemmt_rec R rzero radd rmul Amem Bmem crossover DREC_SPLIT fuel
    uplo transA transB n k alpha A ldA B ldB beta C ldC st =
  RELAPACK_dgemmt_rec R rzero radd rmul Amem Bmem 1 DREC_SPLIT fuel
    uplo transA transB n k alpha A ldA B ldB beta C ldC st /\
  RELAPACK_dgemmt R rzero radd rmul Amem Bmem HAVE_XGEMMT crossover DREC_SPLIT
    lsame native_dgemmt fuel uplo transA transB n k alpha A ldA B ldB beta C ldC st =
  RELAPACK_dgemmt R rzero radd rmul Amem Bmem HAVE_XGEMMT 1 DREC_SPLIT
    lsame native_dgemmt fuel uplo transA transB n k alpha A ldA B ldB beta C ldC st.
Proof.
  intros Hc. split.
  - now apply rec_threshold_clamped.
  - unfold RELAPACK_dgemmt. destruct HAVE_XGEMMT; [reflexivity|]. cbv zeta.
    destruct (negb _); [reflexivity|]. now apply rec_threshold_clamped.
Qed.

(** The example of the specification: n = 3, k = 2, lower triangle, A and B
    as given, alpha = 1, beta = 0, here with the threshold at 1 so that the
    recursion runs, and with lowercase selectors.  The lower triangle of C
    holds the entries of A·B and the strict upper triangle (addresses 3, 6
    and 7) is as it was. *)
Example dgemmt_3x3_lower :
  option_map (fun st => map (Cmem Z st) [0; 1; 2; 3; 4; 5; 6; 7; 8])
    (RELAPACK_dgemmt Z 0 Z.add Z.mul ex_A ex_B false 1 half_split lsame_ascii
       ex_native 4 "l" "n" "n" 3 2 1 0 3 0 2 0 0 3 (mkState Z ex_C []))
  = Some [39; 54; 69; 103; 68; 87; 106; 107; 105].
Proof. vm_compute. reflexivity. Qed.

(** The same product on the upper triangle, with A and B transposed in
    storage (A is 2 x 3 and B is 3 x 2), alpha = 2, beta = 1, and the
    threshold at 24, which leaves the work to the unblocked kernel. *)
Example dgemmt_3x3_upper_transposed :
  option_map (fun st => map (Cmem Z st) [0; 1; 2; 3; 4; 5; 6; 7; 8])
    (RELAPACK_dgemmt Z 0 Z.add Z.mul ex_A ex_B false 24 half_split lsame_ascii
       ex_native 1 "U" "T" "T" 3 2 2 0 2 0 3 1 0 3 (mkState Z ex_C []))
  = Some [154; 101; 102; 163; 240; 105; 172; 257; 342].
Proof. vm_compute. reflexivity. Qed.

(** * The theorems at a concrete input

    The input of the first example: n = 3, k = 2, ldA = 3, ldB = 2,
    ldC = 3, alpha = 1, beta = 0, threshold 1, no native primitive. *)



(** ldB = 1 is below its minimum max(1, k) = 2: parameter 10. *)
Lemma dgemmt_invalid_reports_first_witness :
  RELAPACK_dgemmt Z 0 Z.add Z.mul ex_A ex_B false 1 half_split lsame_ascii
    ex_native 4 "l" "n" "n" 3 2 1 0 3 0 1 0 0 3 (mkState Z ex_C [])
  = Some (mkState Z (Cmem Z (mkState Z ex_C []))
            (calls Z (mkState Z ex_C []) ++ [Xerbla Z "DGEMMT" 10])) /\
  In 10 [1; 2; 3; 4; 5; 8; 10; 13].
Proof.
  apply (dgemmt_invalid_reports_first Z 0 Z.add Z.mul ex_A ex_B false 1
           half_split lsame_ascii ex_native 4 "l" "n" "n" 3 2 1 0 3 0 1 0 0 3
           (mkState Z ex_C []) 10).
  - reflexivity.
  - reflexivity.
Defined.





Lemma dgemmt_n_zero_noop_witness :
  RELAPACK_dgemmt Z 0 Z.add Z.mul ex_A ex_B false 1 half_split lsame_ascii
    ex_native 1 "l" "n" "n" 0 2 1 0 1 0 2 0 0 1 (mkState Z ex_C [])
  = Some (mkState Z ex_C []).
Proof.
  destruct (dgemmt_n_zero_noop Z 0 Z.add Z.mul ex_A ex_B false 1 half_split
              lsame_ascii ex_native 1 "l" "n" "n" 2 1 0 1 0 2 0 0 1
              (mkState Z ex_C [])) as (E & _).
  - reflexivity.
  - reflexivity.
  - lia.
  - exact E.
Defined.

Lemma dgemmt_selectors_canonical_witness :
  RELAPACK_dgemmt Z 0 Z.add Z.mul ex_A ex_B false 1 half_split lsame_ascii
    ex_native 4 "u" "n" "t" 3 2 1 0 3 0 3 0 0 3 (mkState Z ex_C [])
  = RELAPACK_dgemmt Z 0 Z.add Z.mul ex_A ex_B false 1 half_split lsame_ascii
      ex_native 4 "U" "N" "T" 3 2 1 0 3 0 3 0 0 3 (mkState Z ex_C []).
Proof.
  destruct (dgemmt_selectors_canonical Z 0 Z.add Z.mul ex_A ex_B false 1 half_split
              lsame_ascii ex_native 4 "u" "n" "t" 3 2 1 0 3 0 3 0 0 3
              (mkState Z ex_C [])) as (E & _).
  - reflexivity.
  - exact lsame_ascii_canonical.
  - reflexivity.
  - reflexivity.
  - reflexivity.
  - exact E.
Defined.

(** C7, as the specification words it, fails on the code: with the
    fast-path flag set, a call whose triangle selector is 'X' (constraint 1
    is violated) is not diagnosed by the entry point; the only call made is
    the native primitive, with the selector as given. *)
Lemma fast_path_skips_validation :
  first_violation (constraints lsame_ascii "X" "N" "N" 3 2 3 2 3) = Some 1 /\
  option_map (calls Z)
    (RELAPACK_dgemmt Z 0 Z.add Z.mul ex_A ex_B true 1 half_split lsame_ascii
       ex_native 4 "X" "N" "N" 3 2 1 0 3 0 2 0 0 3 (mkState Z ex_C []))
  = Some [Dgemmt Z "X" "N" "N" 3 2 1 0 3 0 2 0 0 3] /\
  option_map (calls Z)
    (RELAPACK_dgemmt Z 0 Z.add Z.mul ex_A ex_B true 1 half_split lsame_ascii
       ex_native 4 "X" "N" "N" 3 2 1 0 3 0 2 0 0 3 (mkState Z ex_C []))
  <> Some [Xerbla Z "DGEMMT" 1].
Proof. split; [reflexivity|]. split; [reflexivity | discriminate]. Qed.

(** * The further properties at a concrete input *)


Lemma dgemmt_calls_conform_witness :
  exists st' t,
    RELAPACK_dgemmt Z 0 Z.add Z.mul ex_A ex_B false 1 half_split lsame_ascii
      ex_native 4 "l" "n" "n" 3 2 1 0 3 0 2 0 0 3 (mkState Z ex_C []) = Some st' /\
    calls Z st' = t /\ forallb (call_conforms Z) t = true.
Proof.
  destruct (dgemmt_calls_conform Z 0 Z.add Z.mul ex_A ex_B false 1 half_split
              lsame_ascii ex_native 4 "l" "n" "n" 3 2 1 0 3 0 2 0 0 3
              (mkState Z ex_C []))
    as (st' & t & E & Ht & H).
  - reflexivity.
  - reflexivity.
  - reflexivity.
  - apply half_split_ok.
  - simpl. lia.
  - exists st', t. split; [exact E|]. split; [exact Ht|].
    apply forallb_forall. exact H.
Defined.

Lemma dgemmt_reads_within_extents_witness :
  exists st1 st2,
    RELAPACK_dgemmt Z 0 Z.add Z.mul ex_A ex_B false 1 half_split lsame_ascii
      ex_native 4 "l" "n" "n" 3 2 1 0 3 0 2 0 0 3 (mkState Z ex_C []) = Some st1 /\
    RELAPACK_dgemmt Z 0 Z.add Z.mul ex_A_elsewhere ex_B false 1 half_split lsame_ascii
      ex_native 4 "l" "n" "n" 3 2 1 0 3 0 2 0 0 3 (mkState Z ex_C []) = Some st2 /\
    Cmem Z st1 4 = Cmem Z st2 4.
Proof.
  destruct (dgemmt_reads_within_extents Z 0 Z.add Z.mul ex_A ex_B ex_A_elsewhere ex_B
              false 1 half_split lsame_ascii ex_native 4 "l" "n" "n" 3 2 1 0 3 0 2 0 0 3
              (mkState Z ex_C []))
    as (st1 & st2 & E1 & E2 & H).
  - reflexivity.
  - reflexivity.
  - reflexivity.
  - apply half_split_ok.
  - simpl. lia.
  - intros i l Hi Hl.
    assert (i = 0 \/ i = 1 \/ i = 2) as [-> | [-> | ->]] by lia;
      (assert (l = 0 \/ l = 1) as [-> | ->] by lia); reflexivity.
  - reflexivity.
  - exists st1, st2. split; [exact E1|]. split; [exact E2 | apply H].
Defined.

Lemma rec_steps_any_order_witness :
  exists st3 st',
    RELAPACK_dgemmt_rec Z 0 Z.add Z.mul ex_A ex_B 1 half_split 4 "L" "N" "N"
      3 2 1 0 3 0 2 0 0 3 (mkState Z ex_C []) = Some st3 /\
    run_steps Z 0 Z.add Z.mul ex_A ex_B 1 half_split ex_native 3 "L" "N" "N"
      3 2 1 0 3 0 2 0 0 3 [BottomRight; Dense; TopLeft] (mkState Z ex_C []) = Some st' /\
    Cmem Z st' 4 = Cmem Z st3 4.
Proof.
  destruct (rec_steps_any_order Z 0 Z.add Z.mul ex_A ex_B 1 half_split ex_native 3
              "L" "N" "N" 3 2 1 0 3 0 2 0 0 3 (mkState Z ex_C []))
    as (st3 & E3 & _ & H).
  - reflexivity.
  - lia.
  - lia.
  - lia.
  - reflexivity.
  - apply half_split_ok.
  - simpl. lia.
  - destruct (H [BottomRight; Dense; TopLeft]) as (st' & E' & H').
    + simpl. tauto.
    + exists st3, st'. split; [exact E3|]. split; [exact E' | apply H'].
Defined.

Lemma dgemmt_lower_then_upper_witness :
  exists st1 st2,
    RELAPACK_dgemmt Z 0 Z.add Z.mul ex_A ex_B false 1 half_split lsame_ascii
      ex_native 4 "l" "n" "n" 3 2 1 0 3 0 2 1 0 3 (mkState Z ex_C []) = Some st1 /\
    RELAPACK_dgemmt Z 0 Z.add Z.mul ex_A ex_B false 1 half_split lsame_ascii
      ex_native 4 "u" "n" "n" 3 2 1 0 3 0 2 1 0 3 st1 = Some st2 /\
    Cmem Z st2 4 = 240 /\ Cmem Z st2 3 = 152.
Proof.
  destruct (dgemmt_lower_then_upper Z 0 Z.add Z.mul ex_A ex_B false 1 half_split
              lsame_ascii ex_native 4 "l" "u" "n" "n" 3 2 1 0 3 0 2 1 0 3
              (mkState Z ex_C []))
    as (st1 & st2 & E1 & E2 & H & _).
  - reflexivity.
  - reflexivity.
  - reflexivity.
  - reflexivity.
  - reflexivity.
  - reflexivity.
  - apply half_split_ok.
  - simpl. lia.
  - exists st1, st2. split; [exact E1|]. split; [exact E2|]. split.
    + assert (H1 := H 1 1 ltac:(lia) ltac:(lia)). vm_compute in H1. exact H1.
    + assert (H1 := H 0 1 ltac:(lia) ltac:(lia)). vm_compute in H1. exact H1.
Defined.

Lemma dgemmt_threshold_clamped_witness :
  RELAPACK_dgemmt Z 0 Z.add Z.mul ex_A ex_B false (-5) half_split lsame_ascii
    ex_native 4 "l" "n" "n" 3 2 1 0 3 0 2 0 0 3 (mkState Z ex_C [])
  = RELAPACK_dgemmt Z 0 Z.add Z.mul ex_A ex_B false 1 half_split lsame_ascii
      ex_native 4 "l" "n" "n" 3 2 1 0 3 0 2 0 0 3 (mkState Z ex_C []).
Proof.
  destruct (dgemmt_threshold_clamped Z 0 Z.add Z.mul ex_A ex_B false (-5) half_split
              lsame_ascii ex_native 4 "l" "n" "n" 3 2 1 0 3 0 2 0 0 3
              (mkState Z ex_C [])) as (_ & E).
  - lia.
  - exact E.
Defined.

(** * Valid inputs whose offsets do not fit in int

    With ldC = 2^30 the product ldC * 2 is 2^31, one more than INT_MAX.  The
    entry point accepts such a leading dimension for any n up to 2^30; the
    kernels then compute the offset of column 2 on ints. *)






